(** * Near field and source level of a baffled piston: the on-axis calculator

    Embedding of the code cell of
    [boat_tutorials/acoustics/SL_3_Near_Field_and_Source_Level.ipynb]:
    the module constants [rho0] and [c], the function
    [far_and_full_field_intensity_on_axis] and the plotting callback
    [update_far_and_full_field_intensity_on_axis].

    Numbers.  Python floats and NumPy float64 values are read as real
    numbers: every arithmetic operation is the exact one, so rounding,
    overflow and underflow are outside this development.  What is kept of
    IEEE arithmetic is what the code can reach in exact arithmetic as well:
    [np.log10] of zero is minus infinity, and a Python scalar division by
    zero raises [ZeroDivisionError] (NumPy array divisions only warn).
    This reading is that of the code for arguments of the sliders'
    magnitudes.  Far outside them a float leaves it: [10**(SL / 20)] raises
    [OverflowError] from a source level of about 6165 on, and the
    denominator of [U0] underflows to zero for a radius such as 1e-200.
    The statements about what is raised and what is returned are therefore
    made for arguments within those magnitudes.

    State.  The function reads the notebook globals [rho0] and [c] when it
    is called, and the callback draws on the pyplot figure list; both live
    in the [kernel] record that is threaded through the [NB] monad. *)

From Stdlib Require Import Reals Lra Lia String List Bool.
Import ListNotations.
Open Scope R_scope.

(** ** Values *)

(** A float64 result: a finite value, or one of the IEEE specials. *)
Inductive xreal : Type :=
| Fin (r : R)
| PosInf
| NegInf
| NaN.

(** [v1 < v2] on float64 values (every comparison with NaN is false). *)
Definition xlt (u v : xreal) : Prop :=
  match u, v with
  | Fin a, Fin b => a < b
  | NegInf, Fin _ | NegInf, PosInf | Fin _, PosInf => True
  | _, _ => False
  end.

(** [m * v] for a finite scalar [m]. *)
Definition xscale (m : R) (v : xreal) : xreal :=
  match v with
  | Fin r => Fin (m * r)
  | NaN => NaN
  | PosInf =>
      if Rlt_dec 0 m then PosInf else if Rlt_dec m 0 then NegInf else NaN
  | NegInf =>
      if Rlt_dec 0 m then NegInf else if Rlt_dec m 0 then PosInf else NaN
  end.


(** [|u - v| < tol]; false as soon as one side is not finite. *)
Definition xwithin (tol : R) (u v : xreal) : Prop :=
  match u, v with
  | Fin a, Fin b => Rabs (a - b) < tol
  | _, _ => False
  end.

(** Python complex numbers and the NumPy complex operations of the cell. *)
Module Complex.

Record complex : Type := mk { re : R; im : R }.

Definition of_real (x : R) : complex := mk x 0.

(** The literal [1j]. *)
Definition j : complex := mk 0 1.

Definition neg (z : complex) : complex := mk (- re z) (- im z).

Definition sub (z w : complex) : complex :=
  mk (re z - re w) (im z - im w).

Definition mul (z w : complex) : complex :=
  mk (re z * re w - im z * im w) (re z * im w + im z * re w).

(** [np.exp] on a complex argument. *)
Definition exp (z : complex) : complex :=
  mk (Rtrigo_def.exp (re z) * cos (im z)) (Rtrigo_def.exp (re z) * sin (im z)).

(** [np.abs] on a complex argument. *)
Definition abs (z : complex) : R := sqrt (re z * re z + im z * im z).

End Complex.

Definition complex : Type := Complex.complex.

(** ** NumPy functions used by the cell *)

Definition log10 (y : R) : R := ln y / ln 10.

(** [np.log10] on a real: minus infinity at zero, NaN below. *)
Definition np_log10 (y : R) : xreal :=
  if Rlt_dec 0 y then Fin (log10 y)
  else if Req_dec_T y 0 then NegInf
  else NaN.

Definition np_square (y : R) : R := y * y.

(** [np.linspace(start, stop, num)] with the default [endpoint=True]:
    [num] samples [i * step + start], the last one overwritten by [stop]. *)
Definition np_linspace (start stop : R) (num : nat) : list R :=
  let div := (num - 1)%nat in
  let step := (stop - start) / INR div in
  let y := map (fun i => INR i * step + start) (seq 0 num) in
  if (1 <? num)%nat then removelast y ++ [stop] else y.

(** ** Notebook state and the monad of a cell *)

Record line : Type := mk_line {
  xdata : list R;
  ydata : list xreal;
  label : string;
  linewidth : R;
  color : string
}.

Record figure : Type := mk_figure {
  num : nat;
  lines : list line;
  xlabel : string;
  ylabel : string;
  grid : bool
}.

(** The globals the cell defines and the figures pyplot holds, the current
    figure first. *)
Record kernel : Type := mk_kernel {
  rho0 : R;
  c : R;
  figures : list figure
}.

Inductive exn : Type := ZeroDivisionError.

Definition NB (A : Type) : Type := kernel -> kernel * (exn + A).

Definition ret {A} (x : A) : NB A := fun st => (st, inr x).

Definition raise {A} (e : exn) : NB A := fun st => (st, inl e).

Definition bind {A B} (m : NB A) (k : A -> NB B) : NB B :=
  fun st =>
    match m st with
    | (st', inr x) => k x st'
    | (st', inl e) => (st', inl e)
    end.

Definition global {A} (proj : kernel -> A) : NB A := fun st => (st, inr (proj st)).

Definition set_figures (upd : list figure -> list figure) : NB unit :=
  fun st => (mk_kernel (rho0 st) (c st) (upd (figures st)), inr tt).

Notation "x <- m ;; k" := (bind m (fun x => k))
  (at level 61, m at next level, right associativity).
Notation "m ;;; k" := (bind m (fun _ => k))
  (at level 61, right associativity).

(** Python's [x / y] on scalars. *)
Definition pydiv (x y : R) : NB R :=
  if Req_dec_T y 0 then raise ZeroDivisionError else ret (x / y).

(** The cell's assignments [rho0 = 1] and [c = 1500], before any plot. *)
Definition constants : kernel := mk_kernel 1 1500 [].

(** ** The calculator *)

(** The local variables of [far_and_full_field_intensity_on_axis] when it
    reaches its [return]. *)
Record frame : Type := mk_frame {
  omega : R;
  k : R;
  SL_lin : R;
  U0 : R;
  x_axis : list R;
  P_far_axis : list R;
  I_far_axis : list xreal;
  P_full_axis : list complex;
  I_full_axis : list xreal
}.

(** The body of the function, statement by statement, in exact arithmetic:
    [Rpower 10 (SL / 20)] is [10**(SL / 20)] as long as the float does not
    overflow, and the division that computes [U0] raises at an exact zero. *)
Definition locals (f a SL : R) : NB frame :=
  let omega := 2 * PI * f * 1000 in
  c <- global c ;;
  k <- pydiv omega c ;;
  let SL_lin := Rpower 10 (SL / 20) in
  rho0 <- global rho0 ;;
  U0 <- pydiv SL_lin (rho0 * c * k * a * a / 2) ;;
  let x_axis := np_linspace 0.01 5 200 in
  let P_far_axis := map (fun x => 0.5 * c * U0 * k * a * a / x) x_axis in
  let I_far_axis := map (fun p => xscale 10 (np_log10 (np_square p))) P_far_axis in
  let P_full_axis :=
    map (fun x =>
           Complex.mul (Complex.of_real (rho0 * c * U0))
             (Complex.sub
                (Complex.exp
                   (Complex.mul
                      (Complex.mul (Complex.neg Complex.j) (Complex.of_real k))
                      (Complex.of_real x)))
                (Complex.exp
                   (Complex.mul
                      (Complex.mul (Complex.neg Complex.j) (Complex.of_real k))
                      (Complex.of_real (sqrt (np_square x + np_square a)))))))
        x_axis in
  let I_full_axis :=
    map (fun p => xscale 10 (np_log10 (Complex.abs p ^ 2))) P_full_axis in
  ret (mk_frame omega k SL_lin U0 x_axis P_far_axis I_far_axis
         P_full_axis I_full_axis).

Definition far_and_full_field_intensity_on_axis (f a SL : R)
  : NB (list R * list xreal * list xreal) :=
  fr <- locals f a SL ;;
  ret (x_axis fr, I_far_axis fr, I_full_axis fr).

(** ** The plotting callback *)

Definition new_figure (n : nat) : figure := mk_figure n [] EmptyString EmptyString false.

(** [plt.close('all')]. *)
Definition plt_close_all : NB unit := set_figures (fun _ => []).

(** [plt.figure(n)]: figure [n] becomes the current one, created if absent. *)
Definition plt_figure (n : nat) : NB unit :=
  set_figures (fun figs =>
    match filter (fun g => Nat.eqb (num g) n) figs with
    | g :: _ => g :: filter (fun g => negb (Nat.eqb (num g) n)) figs
    | [] => new_figure n :: figs
    end).

(** An update of the current figure; one is created when there is none. *)
Definition on_current (upd : figure -> figure) : NB unit :=
  set_figures (fun figs =>
    match figs with
    | g :: rest => upd g :: rest
    | [] => [upd (new_figure 1)]
    end).

Definition plt_plot (x : list R) (y : list xreal) (lbl : string) (lw : R)
    (col : string) : NB unit :=
  on_current (fun g =>
    mk_figure (num g) (lines g ++ [mk_line x y lbl lw col])
      (xlabel g) (ylabel g) (grid g)).

Definition plt_xlabel (s : string) : NB unit :=
  on_current (fun g => mk_figure (num g) (lines g) s (ylabel g) (grid g)).

Definition plt_ylabel (s : string) : NB unit :=
  on_current (fun g => mk_figure (num g) (lines g) (xlabel g) s (grid g)).

Definition plt_grid (b : bool) : NB unit :=
  on_current (fun g => mk_figure (num g) (lines g) (xlabel g) (ylabel g) b).

(** The last statement of the source, [plt.show], names the function without
    calling it, so nothing follows the grid. *)
Definition update_far_and_full_field_intensity_on_axis (f a SL : R) : NB unit :=
  r <- far_and_full_field_intensity_on_axis f a SL ;;
  let '(x_axis, I_far_axis, I_full_axis) := r in
  plt_close_all ;;;
  plt_figure 1 ;;;
  plt_plot x_axis I_far_axis "Far-field intensity along main beam axis" 2 "b" ;;;
  plt_plot x_axis I_full_axis "Full-field intensity along main beam axis" 2 "r" ;;;
  plt_xlabel "Range (m)" ;;;
  plt_ylabel "Intensity (dB re 1μPa)" ;;;
  plt_grid true.

(** ** Inputs *)

(** The slider bounds: frequency in kHz, radius in metres, level in dB. *)
Definition valid_input (f a SL : R) : Prop :=
  1 <= f <= 200 /\ 0.01 <= a <= 1 /\ 100 <= SL <= 220.

(** A state in which the cell's constants hold, whatever has been plotted. *)
Definition has_constants (st : kernel) : Prop :=
  rho0 st = 1 /\ c st = 1500.

(** ** Vocabulary of the statements *)

(** One sample of [P_far_axis] and of [P_full_axis], as the body computes it. *)
Definition far_sample (c U0 k a x : R) : R := 0.5 * c * U0 * k * a * a / x.

Definition full_sample (rho0 c U0 k a x : R) : complex :=
  Complex.mul (Complex.of_real (rho0 * c * U0))
    (Complex.sub
       (Complex.exp
          (Complex.mul (Complex.mul (Complex.neg Complex.j) (Complex.of_real k))
             (Complex.of_real x)))
       (Complex.exp
          (Complex.mul (Complex.mul (Complex.neg Complex.j) (Complex.of_real k))
             (Complex.of_real (sqrt (np_square x + np_square a)))))).

Definition dB (p2 : R) : xreal := xscale 10 (np_log10 p2).

(** The frame the body builds once both divisions go through. *)
Definition returned (f a SL : R) (st : kernel) (fr : frame) : Prop :=
  locals f a SL st = (st, inr fr) /\
  omega fr = 2 * PI * f * 1000 /\
  k fr = omega fr / c st /\
  SL_lin fr = Rpower 10 (SL / 20) /\
  U0 fr = SL_lin fr / (rho0 st * c st * k fr * a * a / 2) /\
  x_axis fr = np_linspace 0.01 5 200 /\
  P_far_axis fr = map (far_sample (c st) (U0 fr) (k fr) a) (x_axis fr) /\
  I_far_axis fr = map (fun p => dB (np_square p)) (P_far_axis fr) /\
  P_full_axis fr = map (full_sample (rho0 st) (c st) (U0 fr) (k fr) a) (x_axis fr) /\
  I_full_axis fr = map (fun p => dB (Complex.abs p ^ 2)) (P_full_axis fr).

(** The path difference between the rim and the centre of the piston. *)
Definition detour (a x : R) : R := sqrt (np_square x + np_square a) - x.

(** The wavelength [lambda = c / f], with the frequency given in kHz. *)
Definition wavelength (st : kernel) (f : R) : R := c st / (f * 1000).

(** A computation that assigns to neither [rho0] nor [c]. *)
Definition keeps_globals {A} (m : NB A) : Prop :=
  forall st, rho0 (fst (m st)) = rho0 st /\ c (fst (m st)) = c st.

(** The figure the callback leaves behind: the two curves over the range
    axis, labelled, on a grid. *)
Definition two_curves (xs : list R) (far full : list xreal) : figure :=
  mk_figure 1
    [mk_line xs far "Far-field intensity along main beam axis" 2 "b";
     mk_line xs full "Full-field intensity along main beam axis" 2 "r"]
    "Range (m)" "Intensity (dB re 1μPa)" true.

(** [u <= v] on float64 values. *)
Definition xle (u v : xreal) : Prop := xlt u v \/ (u = v /\ u <> NaN).

(** Globals of a moderate size, as the cell's are: with them and with
    arguments of the sliders' magnitudes every intermediate float stays far
    from overflow and underflow. *)
Definition moderate_globals (st : kernel) : Prop :=
  0.001 <= Rabs (rho0 st) <= 10000 /\ 1 <= Rabs (c st) <= 10000.

(** ** Logarithms *)

Lemma ln10_pos : 0 < ln 10.
Proof. rewrite <- ln_1. apply ln_increasing; lra. Qed.

Lemma log10_Rpower (y : R) : log10 (Rpower 10 y) = y.
Proof.
  unfold log10. rewrite ln_Rpower. field.
  apply Rgt_not_eq, ln10_pos.
Qed.

Lemma log10_mult (x y : R) : 0 < x -> 0 < y -> log10 (x * y) = log10 x + log10 y.
Proof.
  intros Hx Hy. unfold log10. rewrite ln_mult by assumption. field.
  apply Rgt_not_eq, ln10_pos.
Qed.

Lemma log10_inv (x : R) : 0 < x -> log10 (/ x) = - log10 x.
Proof.
  intros Hx. unfold log10. rewrite ln_Rinv by assumption. field.
  apply Rgt_not_eq, ln10_pos.
Qed.

Lemma log10_div (x y : R) : 0 < x -> 0 < y -> log10 (x / y) = log10 x - log10 y.
Proof.
  intros Hx Hy. unfold Rdiv.
  rewrite log10_mult by auto using Rinv_0_lt_compat.
  rewrite log10_inv by assumption. ring.
Qed.

Lemma log10_lt (x y : R) : 0 < x -> x < y -> log10 x < log10 y.
Proof.
  intros Hx Hxy. unfold log10, Rdiv.
  apply Rmult_lt_compat_r.
  - apply Rinv_0_lt_compat, ln10_pos.
  - now apply ln_increasing.
Qed.

Lemma log10_1 : log10 1 = 0.
Proof. unfold log10. rewrite ln_1. field. apply Rgt_not_eq, ln10_pos. Qed.

Lemma np_log10_pos (y : R) : 0 < y -> np_log10 y = Fin (log10 y).
Proof. intros Hy. unfold np_log10. destruct (Rlt_dec 0 y); [reflexivity | contradiction]. Qed.

Lemma np_log10_zero : np_log10 0 = NegInf.
Proof.
  unfold np_log10. destruct (Rlt_dec 0 0); [lra |].
  destruct (Req_dec_T 0 0); [reflexivity | contradiction].
Qed.

Lemma xscale_10_NegInf : xscale 10 NegInf = NegInf.
Proof. simpl. destruct (Rlt_dec 0 10); [reflexivity | lra]. Qed.

(** ** The range axis *)

Lemma seq_snoc (n : nat) : seq 0 (S n) = seq 0 n ++ [n].
Proof. rewrite seq_S. reflexivity. Qed.

Lemma np_linspace_map (start stop : R) (n : nat) :
  (1 < n)%nat ->
  np_linspace start stop n =
  map (fun i => INR i * ((stop - start) / INR (n - 1)) + start) (seq 0 n).
Proof.
  intros Hn. unfold np_linspace.
  destruct (Nat.ltb_spec 1 n) as [_ | Hle]; [| lia].
  destruct n as [| m]; [lia |].
  replace (S m - 1)%nat with m by lia.
  cbv zeta. rewrite seq_snoc, map_app. cbn [map].
  rewrite removelast_last. do 2 f_equal. field.
  apply not_0_INR. lia.
Qed.

Lemma np_linspace_length (start stop : R) (n : nat) :
  length (np_linspace start stop n) = n.
Proof.
  destruct (Nat.ltb_spec 1 n) as [Hn | Hn].
  - rewrite np_linspace_map by assumption. now rewrite length_map, length_seq.
  - unfold np_linspace. destruct (Nat.ltb_spec 1 n); [lia |].
    now rewrite length_map, length_seq.
Qed.

Lemma np_linspace_nth (start stop d : R) (n i : nat) :
  (1 < n)%nat -> (i < n)%nat ->
  nth i (np_linspace start stop n) d =
  INR i * ((stop - start) / INR (n - 1)) + start.
Proof.
  intros Hn Hi. rewrite np_linspace_map by assumption.
  set (sample := fun i => INR i * ((stop - start) / INR (n - 1)) + start).
  rewrite nth_indep with (d' := sample 0%nat)
    by now rewrite length_map, length_seq.
  rewrite map_nth, seq_nth by assumption. reflexivity.
Qed.

(** The 200 samples of the cell: [x_i = 0.01 + i * 4.99 / 199]. *)
Lemma x_axis_nth (i : nat) (d : R) :
  (i < 200)%nat -> nth i (np_linspace 0.01 5 200) d = INR i * (4.99 / 199) + 0.01.
Proof.
  intros Hi. rewrite np_linspace_nth by lia.
  replace (200 - 1)%nat with 199%nat by reflexivity.
  replace (INR 199) with 199 by (rewrite INR_IZR_INZ; reflexivity).
  lra.
Qed.

Lemma x_axis_bounds (i : nat) (d : R) :
  (i < 200)%nat -> 0.01 <= nth i (np_linspace 0.01 5 200) d <= 5.
Proof.
  intros Hi. rewrite x_axis_nth by assumption.
  assert (H0 : 0 <= INR i) by apply pos_INR.
  assert (H1 : INR i <= 199).
  { replace 199 with (INR 199) by (rewrite INR_IZR_INZ; reflexivity).
    apply le_INR. lia. }
  lra.
Qed.

Lemma x_axis_increasing (i : nat) (d : R) :
  (i + 1 < 200)%nat ->
  nth i (np_linspace 0.01 5 200) d < nth (i + 1) (np_linspace 0.01 5 200) d.
Proof.
  intros Hi. rewrite !x_axis_nth by lia.
  rewrite plus_INR. simpl INR. lra.
Qed.

(** ** Running the body *)

Lemma nth_map_lt {A B} (g : A -> B) (l : list A) (i : nat) (d : B) (d' : A) :
  (i < length l)%nat -> nth i (map g l) d = g (nth i l d').
Proof.
  intros Hi. rewrite nth_indep with (d' := g d') by now rewrite length_map.
  apply map_nth.
Qed.

Lemma pydiv_ok (x y : R) (st : kernel) : y <> 0 -> pydiv x y st = (st, inr (x / y)).
Proof. intros Hy. unfold pydiv. destruct (Req_dec_T y 0); [contradiction | reflexivity]. Qed.

Lemma pydiv_zero (x y : R) (st : kernel) :
  y = 0 -> pydiv x y st = (st, inl ZeroDivisionError).
Proof. intros Hy. unfold pydiv. destruct (Req_dec_T y 0); [reflexivity | contradiction]. Qed.

Lemma locals_run (f a SL : R) (st : kernel) :
  c st <> 0 ->
  rho0 st * c st * (2 * PI * f * 1000 / c st) * a * a / 2 <> 0 ->
  exists fr, returned f a SL st fr.
Proof.
  intros Hc Hden. unfold returned, locals, bind, global.
  rewrite (pydiv_ok _ _ _ Hc), (pydiv_ok _ _ _ Hden).
  eexists. split; [reflexivity |]. cbn. repeat split; reflexivity.
Qed.

Lemma locals_state (f a SL : R) (st : kernel) : fst (locals f a SL st) = st.
Proof.
  unfold locals, bind, global, pydiv, raise, ret.
  destruct (Req_dec_T (c st) 0); [reflexivity |].
  destruct (Req_dec_T _ 0); reflexivity.
Qed.

Lemma locals_raises (f a SL : R) (st : kernel) :
  c st <> 0 ->
  rho0 st * c st * (2 * PI * f * 1000 / c st) * a * a / 2 = 0 ->
  locals f a SL st = (st, inl ZeroDivisionError).
Proof.
  intros Hc Hden. unfold locals, bind, global.
  rewrite (pydiv_ok _ _ _ Hc). now rewrite (pydiv_zero _ _ _ Hden).
Qed.

Lemma denominator_zero_iff (f a : R) :
  1 * 1500 * (2 * PI * f * 1000 / 1500) * a * a / 2 = 0 <-> f = 0 \/ a = 0.
Proof.
  pose proof PI_RGT_0 as Hpi. split.
  - intros H.
    assert (H' : PI * (f * (a * a)) = 0) by lra.
    apply Rmult_integral in H'. destruct H' as [H' | H']; [lra |].
    apply Rmult_integral in H'. destruct H' as [H' | H']; [now left | right].
    apply Rmult_integral in H'. tauto.
  - intros [-> | ->]; lra.
Qed.

Lemma locals_nonzero (f a SL : R) (st : kernel) :
  has_constants st -> f <> 0 -> a <> 0 -> exists fr, returned f a SL st fr.
Proof.
  intros [Hrho Hc] Hf Ha. apply locals_run.
  - rewrite Hc. lra.
  - rewrite Hrho, Hc. rewrite denominator_zero_iff. tauto.
Qed.

Lemma valid_nonzero (f a SL : R) : valid_input f a SL -> f <> 0 /\ a <> 0.
Proof. unfold valid_input. lra. Qed.

Lemma calculator_run (f a SL : R) (st : kernel) (fr : frame) :
  returned f a SL st fr ->
  far_and_full_field_intensity_on_axis f a SL st =
  (st, inr (x_axis fr, I_far_axis fr, I_full_axis fr)).
Proof.
  intros [Hrun _]. unfold far_and_full_field_intensity_on_axis, bind.
  now rewrite Hrun.
Qed.

(** ** The far field *)

Lemma Rpower10_pos (y : R) : 0 < Rpower 10 y.
Proof. unfold Rpower. apply exp_pos. Qed.

(** The factors [c], [k] and [a * a] cancel against [U0]. *)
Lemma far_sample_cancels (f a SL x : R) (st : kernel) (fr : frame) :
  has_constants st -> f <> 0 -> a <> 0 -> x <> 0 ->
  returned f a SL st fr ->
  far_sample (c st) (U0 fr) (k fr) a x = Rpower 10 (SL / 20) / x.
Proof.
  intros [Hrho Hc] Hf Ha Hx (_ & Hom & Hk & HSL & HU & _).
  pose proof PI_RGT_0 as Hpi.
  unfold far_sample. rewrite HU, HSL, Hk, Hom, Hrho, Hc.
  replace 0.5 with (/ 2) by lra.
  field. repeat split; lra.
Qed.

Lemma far_dB (SL x : R) :
  0 < x -> dB (np_square (Rpower 10 (SL / 20) / x)) = Fin (SL - 20 * log10 x).
Proof.
  intros Hx. pose proof (Rpower10_pos (SL / 20)) as Hp.
  assert (Hq : 0 < Rpower 10 (SL / 20) / x) by now apply Rdiv_lt_0_compat.
  unfold dB, np_square. rewrite np_log10_pos by now apply Rmult_lt_0_compat.
  cbn [xscale]. f_equal.
  rewrite log10_mult, log10_div, log10_Rpower by assumption. lra.
Qed.

Lemma x_axis_pos (i : nat) (d : R) :
  (i < 200)%nat -> 0 < nth i (np_linspace 0.01 5 200) d.
Proof. intros Hi. pose proof (x_axis_bounds i d Hi). lra. Qed.

Lemma far_axis_nth (f a SL : R) (st : kernel) (fr : frame) (i : nat) :
  has_constants st -> f <> 0 -> a <> 0 -> returned f a SL st fr ->
  (i < 200)%nat ->
  nth i (P_far_axis fr) 0 = Rpower 10 (SL / 20) / nth i (x_axis fr) 0 /\
  nth i (I_far_axis fr) NaN = Fin (SL - 20 * log10 (nth i (x_axis fr) 0)).
Proof.
  intros Hst Hf Ha Hret Hi.
  pose proof Hret as (_ & _ & _ & _ & _ & Hx & HP & HI & _).
  assert (Hlen : length (x_axis fr) = 200%nat)
    by (rewrite Hx; apply np_linspace_length).
  assert (Hpos : 0 < nth i (x_axis fr) 0) by (rewrite Hx; now apply x_axis_pos).
  assert (HPi : nth i (P_far_axis fr) 0 = Rpower 10 (SL / 20) / nth i (x_axis fr) 0).
  { rewrite HP, nth_map_lt with (d' := 0) by lia.
    apply (far_sample_cancels f a SL _ st fr); auto. lra. }
  split; [exact HPi |].
  rewrite HI, nth_map_lt with (d' := 0) by (rewrite HP, length_map; lia).
  rewrite HPi. now apply far_dB.
Qed.

(** ** The full field *)

Lemma phase (k x : R) :
  Complex.mul (Complex.mul (Complex.neg Complex.j) (Complex.of_real k))
    (Complex.of_real x) = Complex.mk 0 (- (k * x)).
Proof. unfold Complex.mul, Complex.neg, Complex.j, Complex.of_real. cbn. f_equal; ring. Qed.

Lemma exp_phase (t : R) :
  Complex.exp (Complex.mk 0 (- t)) = Complex.mk (cos t) (- sin t).
Proof.
  unfold Complex.exp. cbn. rewrite exp_0, cos_neg, sin_neg. f_equal; ring.
Qed.

(** [|exp(-i k x) - exp(-i k y)|^2 = 2 - 2 cos (k (y - x))], scaled. *)
Lemma full_sample_abs2 (rho0 c U0 k a x : R) :
  Complex.abs (full_sample rho0 c U0 k a x) ^ 2 =
  (rho0 * c * U0) ^ 2 * (2 - 2 * cos (k * detour a x)).
Proof.
  unfold full_sample, detour. rewrite !phase, !exp_phase.
  set (y := sqrt (np_square x + np_square a)).
  unfold Complex.abs, Complex.mul, Complex.sub, Complex.of_real. cbn [Complex.re Complex.im].
  rewrite pow2_sqrt by (apply Rplus_le_le_0_compat; apply Rle_0_sqr).
  replace (k * (y - x)) with (k * y - k * x) by ring.
  rewrite cos_minus.
  pose proof (sin2_cos2 (k * x)) as H1. pose proof (sin2_cos2 (k * y)) as H2.
  unfold Rsqr in H1, H2.
  set (C1 := cos (k * x)) in *. set (S1 := sin (k * x)) in *.
  set (C2 := cos (k * y)) in *. set (S2 := sin (k * y)) in *.
  set (A := rho0 * c * U0).
  transitivity (A * A * ((S1 * S1 + C1 * C1) + (S2 * S2 + C2 * C2)
                         - 2 * (C2 * C1 + S2 * S1))); [ring |].
  rewrite H1, H2. ring.
Qed.

Lemma one_minus_cos (t : R) : 2 - 2 * cos t = 4 * (sin (t / 2) * sin (t / 2)).
Proof.
  replace t with (2 * (t / 2)) at 1 by field.
  rewrite cos_2a_sin. ring.
Qed.

Lemma one_minus_cos_bounds (t : R) : 0 <= 2 - 2 * cos t <= 4.
Proof. pose proof (COS_bound t). lra. Qed.

(** The source-level factor splits off the squared full-field pressure. *)
Lemma full_axis_nth (f a SL : R) (st : kernel) (fr : frame) (i : nat) :
  has_constants st -> f <> 0 -> a <> 0 -> returned f a SL st fr ->
  (i < 200)%nat ->
  nth i (I_full_axis fr) NaN =
  dB (Rpower 10 (SL / 20) ^ 2 *
      ((2 / (k fr * a * a)) ^ 2 * (2 - 2 * cos (k fr * detour a (nth i (x_axis fr) 0))))) /\
  k fr = 2 * PI * f * 1000 / 1500.
Proof.
  intros [Hrho Hc] Hf Ha Hret Hi.
  pose proof Hret as (_ & Hom & Hk & HSL & HU & Hx & _ & _ & HP & HI).
  pose proof PI_RGT_0 as Hpi.
  assert (Hlen : length (x_axis fr) = 200%nat)
    by (rewrite Hx; apply np_linspace_length).
  assert (Hk' : k fr = 2 * PI * f * 1000 / 1500) by (rewrite Hk, Hom, Hc; reflexivity).
  assert (Hk0 : k fr <> 0).
  { rewrite Hk'. intros H. assert (H' : PI * f = 0) by lra.
    apply Rmult_integral in H'. lra. }
  split; [| exact Hk'].
  rewrite HI, nth_map_lt with (d' := Complex.mk 0 0) by (rewrite HP, length_map; lia).
  rewrite HP, nth_map_lt with (d' := 0) by lia.
  rewrite full_sample_abs2. f_equal.
  rewrite HU, HSL, Hrho, Hc. field. auto.
Qed.


Lemma last_nth {A} (l : list A) (d : A) : last l d = nth (length l - 1) l d.
Proof.
  induction l as [| x [| y l] IH]; try reflexivity.
  change (last (x :: y :: l) d) with (last (y :: l) d).
  rewrite IH. cbn [length].
  replace (S (S (length l)) - 1)%nat with (S (S (length l) - 1)) by lia.
  reflexivity.
Qed.

(** ** Near field against far field *)

Lemma PI_gt_3 : 3 < PI.
Proof. pose proof PI2_3_2. lra. Qed.

Lemma sin_cubic_lower (t : R) : 0 <= t -> t <= PI -> t - t ^ 3 / 6 <= sin t.
Proof.
  intros H0 Hpi. destruct (sin_bound t 0 H0 Hpi) as [Hlow _].
  unfold sin_approx, sin_term in Hlow. cbn in Hlow. lra.
Qed.

(** [sin t / t] lies in [[23/24, 1)] on [(0, 1/2]]. *)
Lemma sinc_bounds (t : R) :
  0 < t -> t <= 1 / 2 -> 23 / 24 <= sin t / t < 1.
Proof.
  intros H0 H1. pose proof PI_gt_3 as Hpi.
  assert (Hlow : t - t ^ 3 / 6 <= sin t) by (apply sin_cubic_lower; lra).
  assert (Hup : sin t < t) by now apply sin_lt_x.
  assert (E : sin t / t * t = sin t) by (field; lra).
  split.
  - apply Rmult_le_reg_r with t; [assumption |]. rewrite E. nra.
  - apply Rmult_lt_reg_r with t; [assumption |]. rewrite E. lra.
Qed.

(** A ratio of squared pressures between [4/5] and [1] is less than 1 dB. *)
Lemma dB_gap (q : R) : 4 / 5 <= q <= 1 -> -1 < 10 * log10 q <= 0.
Proof.
  intros [Hlo Hhi]. pose proof ln10_pos as H10.
  assert (Hq : 0 < q) by lra.
  assert (Hup : ln q <= 0).
  { destruct Hhi as [Hlt | ->]; [| rewrite ln_1; lra].
    rewrite <- ln_1. left. now apply ln_increasing. }
  assert (Hdown : - ln 10 < 10 * ln q).
  { replace 10 with (INR 10) at 2 by (rewrite INR_IZR_INZ; reflexivity).
    rewrite <- ln_pow by assumption.
    replace (- ln 10) with (ln (/ 10)) by (rewrite ln_Rinv; lra).
    apply ln_increasing; [lra |].
    apply Rlt_le_trans with ((4 / 5) ^ 10); [lra |].
    apply pow_incr. lra. }
  unfold log10. split.
  - apply Rmult_lt_reg_r with (ln 10); [assumption |].
    replace (10 * (ln q / ln 10) * ln 10) with (10 * ln q) by (field; lra). lra.
  - apply Rmult_le_reg_r with (ln 10); [assumption |].
    replace (10 * (ln q / ln 10) * ln 10) with (10 * ln q) by (field; lra). lra.
Qed.

Lemma detour_facts (a x : R) :
  0 < a -> 0 < x ->
  let y := sqrt (np_square x + np_square a) in
  x < y /\ (y - x) * (y + x) = a * a.
Proof.
  intros Ha Hx y.
  assert (Hy0 : 0 <= y) by apply sqrt_pos.
  assert (Hy2 : y * y = x * x + a * a).
  { unfold y, np_square. apply sqrt_sqrt. nra. }
  split; nra.
Qed.

(** The squared ratio of full-field to far-field pressure at range [x], once
    [x >= 4 a] and [k a^2 <= 2 x]. *)
Lemma pressure_ratio_bounds (k a x : R) :
  0 < k -> 0 < a -> 4 * a <= x -> k * (a * a) <= 2 * x ->
  4 / 5 <=
  x ^ 2 * ((2 / (k * a * a)) ^ 2 * (2 - 2 * cos (k * detour a x))) <= 1.
Proof.
  intros Hk Ha Hxa Hka.
  assert (Hx : 0 < x) by lra.
  destruct (detour_facts a x Ha Hx) as [Hxy Hprod].
  unfold detour. set (y := sqrt (np_square x + np_square a)) in *.
  assert (Hy : y <= 33 / 32 * x) by nra.
  set (t := k * (y - x) / 2).
  assert (Ht0 : 0 < t) by (unfold t; nra).
  assert (Ht : t * (2 * (y + x)) = k * (a * a)) by (unfold t; rewrite <- Hprod; field).
  assert (Ht1 : t <= 1 / 2) by nra.
  destruct (sinc_bounds t Ht0 Ht1) as [Hu1 Hu2].
  set (u := sin t / t) in *.
  set (v := 2 * x / (y + x)).
  assert (E : v * (y + x) = 2 * x) by (unfold v; field; lra).
  assert (Hv1 : 64 / 65 <= v).
  { apply Rmult_le_reg_r with (y + x); [lra |]. rewrite E. lra. }
  assert (Hv2 : v <= 1).
  { apply Rmult_le_reg_r with (y + x); [lra |]. rewrite E. lra. }
  rewrite one_minus_cos. fold t.
  replace (x ^ 2 * ((2 / (k * a * a)) ^ 2 * (4 * (sin t * sin t))))
    with ((u * v) ^ 2).
  - assert (Huv1 : 23 / 24 * (64 / 65) <= u * v) by nra.
    assert (Huv2 : u * v <= 1) by nra.
    split; nra.
  - unfold u, v. rewrite Rmult_assoc, <- Hprod. unfold t. field.
    repeat split; lra.
Qed.

(** ** Properties of the calculator *)

Lemma valid_returned (f a SL : R) (st : kernel) :
  valid_input f a SL -> has_constants st -> exists fr, returned f a SL st fr.
Proof.
  intros Hv Hst. destruct (valid_nonzero f a SL Hv) as [Hf Ha].
  now apply locals_nonzero.
Qed.

Lemma returned_lengths (f a SL : R) (st : kernel) (fr : frame) :
  returned f a SL st fr ->
  length (x_axis fr) = 200%nat /\
  length (I_far_axis fr) = 200%nat /\
  length (I_full_axis fr) = 200%nat.
Proof.
  intros (_ & _ & _ & _ & _ & Hx & HP & HI & HP' & HI').
  assert (Hlen : length (x_axis fr) = 200%nat)
    by (rewrite Hx; apply np_linspace_length).
  rewrite HI, HI', HP, HP', !length_map. auto.
Qed.

Lemma locals_inv (f a SL : R) (st st' : kernel) (fr : frame) :
  locals f a SL st = (st', inr fr) -> st' = st /\ returned f a SL st fr.
Proof.
  intros Hrun.
  destruct (Req_dec_T (c st) 0) as [Hc | Hc].
  - unfold locals, bind, global in Hrun.
    rewrite (pydiv_zero _ _ _ Hc) in Hrun. discriminate.
  - destruct (Req_dec_T (rho0 st * c st * (2 * PI * f * 1000 / c st) * a * a / 2) 0)
      as [Hden | Hden].
    + rewrite (locals_raises f a SL st Hc Hden) in Hrun. discriminate.
    + destruct (locals_run f a SL st Hc Hden) as [fr' Hret].
      pose proof Hret as [Hrun' _]. rewrite Hrun' in Hrun.
      injection Hrun as <- <-. auto.
Qed.

Lemma calculator_inv (f a SL : R) (st st' : kernel) (r : list R * list xreal * list xreal) :
  far_and_full_field_intensity_on_axis f a SL st = (st', inr r) ->
  exists fr, st' = st /\ returned f a SL st fr /\
             r = (x_axis fr, I_far_axis fr, I_full_axis fr).
Proof.
  unfold far_and_full_field_intensity_on_axis, bind, ret. intros Hrun.
  destruct (locals f a SL st) as [st1 [e | fr]] eqn:Hloc; [discriminate |].
  injection Hrun as <- <-. apply locals_inv in Hloc as [-> Hret].
  exists fr. auto.
Qed.

Lemma constants_hold : has_constants constants.
Proof. split; reflexivity. Qed.

(** The sliders' initial values: 12 kHz, 0.5 m, 180 dB. *)
Lemma slider_defaults_valid : valid_input 12 0.5 180.
Proof. unfold valid_input. lra. Qed.

Lemma slider_defaults_returned : exists fr, returned 12 0.5 180 constants fr.
Proof. apply valid_returned; [apply slider_defaults_valid | apply constants_hold]. Qed.

(** C1: for every valid input the far-field intensity taken at the reference
    range of 1 m is the chosen source level: the expression of the code with
    1 in place of the range sample evaluates to [SL], and so does the
    formula [10 * log10 ((0.5 * c * U0 * k * a^2 / 1)^2)] (exact in real
    arithmetic, hence within every tolerance). *)
Theorem far_field_at_reference_range (f a SL : R) (st : kernel) :
  valid_input f a SL -> has_constants st ->
  exists fr,
    locals f a SL st = (st, inr fr) /\
    xscale 10 (np_log10 (np_square (0.5 * c st * U0 fr * k fr * a * a / 1))) = Fin SL /\
    10 * log10 ((0.5 * c st * U0 fr * k fr * a ^ 2 / 1) ^ 2) = SL /\
    forall tol, 0 < tol ->
      xwithin tol
        (xscale 10 (np_log10 (np_square (0.5 * c st * U0 fr * k fr * a * a / 1))))
        (Fin SL).
Proof.
  intros Hv Hst. destruct (valid_nonzero f a SL Hv) as [Hf Ha].
  destruct (valid_returned f a SL st Hv Hst) as [fr Hret].
  exists fr. split; [apply Hret |].
  assert (Hfar : far_sample (c st) (U0 fr) (k fr) a 1 = Rpower 10 (SL / 20) / 1)
    by (apply (far_sample_cancels f a SL 1 st fr); auto; lra).
  unfold far_sample in Hfar.
  assert (Hval : xscale 10 (np_log10 (np_square (0.5 * c st * U0 fr * k fr * a * a / 1)))
                 = Fin SL).
  { rewrite Hfar. fold (dB (np_square (Rpower 10 (SL / 20) / 1))).
    rewrite far_dB by lra. rewrite log10_1. f_equal. ring. }
  split; [exact Hval |]. split.
  - replace (0.5 * c st * U0 fr * k fr * a ^ 2 / 1)
      with (0.5 * c st * U0 fr * k fr * a * a / 1) by (unfold Rdiv; ring).
    rewrite Hfar.
    pose proof (far_dB SL 1 Rlt_0_1) as H. unfold dB, np_square in H.
    pose proof (Rpower10_pos (SL / 20)) as Hp.
    rewrite np_log10_pos in H by (apply Rmult_lt_0_compat; lra).
    cbn [xscale] in H. injection H as H. rewrite log10_1 in H.
    replace ((Rpower 10 (SL / 20) / 1) ^ 2)
      with (Rpower 10 (SL / 20) / 1 * (Rpower 10 (SL / 20) / 1)) by ring.
    lra.
  - intros tol Htol. rewrite Hval. cbn. rewrite Rminus_diag, Rabs_R0. exact Htol.
Qed.

Lemma far_field_at_reference_range_witness :
  exists fr,
    locals 12 0.5 180 constants = (constants, inr fr) /\
    xscale 10
      (np_log10 (np_square (0.5 * c constants * U0 fr * k fr * 0.5 * 0.5 / 1)))
    = Fin 180.
Proof.
  destruct (far_field_at_reference_range 12 0.5 180 constants) as (fr & Hrun & Hval & _).
  - unfold valid_input. lra.
  - split; reflexivity.
  - exists fr. split; [exact Hrun | exact Hval].
Defined.

(** C3: for every valid input the calculator returns, and the range axis, the
    far-field sequence and the full-field sequence it returns have the same
    length. *)
Theorem sequences_same_length (f a SL : R) (st : kernel) :
  valid_input f a SL -> has_constants st ->
  exists xs far full,
    far_and_full_field_intensity_on_axis f a SL st = (st, inr (xs, far, full)) /\
    length far = length xs /\ length full = length xs.
Proof.
  intros Hv Hst. destruct (valid_returned f a SL st Hv Hst) as [fr Hret].
  exists (x_axis fr), (I_far_axis fr), (I_full_axis fr).
  split; [now apply calculator_run |].
  destruct (returned_lengths f a SL st fr Hret) as (-> & -> & ->). auto.
Qed.

Lemma sequences_same_length_witness :
  exists xs far full,
    far_and_full_field_intensity_on_axis 12 0.5 180 constants
    = (constants, inr (xs, far, full)) /\
    length far = length xs /\ length full = length xs.
Proof.
  apply (sequences_same_length 12 0.5 180 constants).
  - unfold valid_input. lra.
  - split; reflexivity.
Defined.

(** C6: whatever the input and the state, when the calculator returns, its
    range axis is [np.linspace(0.01, 5, 200)]: 200 samples, strictly
    increasing, each of them in (0, 5]. *)
Theorem range_axis_fixed (f a SL : R) (st st' : kernel)
    (xs : list R) (far full : list xreal) :
  far_and_full_field_intensity_on_axis f a SL st = (st', inr (xs, far, full)) ->
  xs = np_linspace 0.01 5 200 /\
  length xs = 200%nat /\
  (forall i j, (i < j < 200)%nat -> nth i xs 0 < nth j xs 0) /\
  Forall (fun x => 0 < x <= 5) xs.
Proof.
  intros Hrun. apply calculator_inv in Hrun as (fr & _ & Hret & Heq).
  injection Heq as -> _ _.
  destruct Hret as (_ & _ & _ & _ & _ & Hx & _). rewrite Hx.
  split; [reflexivity |]. split; [apply np_linspace_length |]. split.
  - intros i j [Hij Hj]. rewrite !x_axis_nth by lia.
    assert (H : INR i < INR j) by now apply lt_INR. lra.
  - apply Forall_forall. intros x Hin.
    apply In_nth with (d := 0) in Hin as (i & Hi & <-).
    rewrite np_linspace_length in Hi.
    pose proof (x_axis_bounds i 0 Hi). lra.
Qed.

Lemma range_axis_fixed_witness :
  exists xs far full,
    far_and_full_field_intensity_on_axis 12 0.5 180 constants
    = (constants, inr (xs, far, full)) /\
    xs = np_linspace 0.01 5 200 /\ length xs = 200%nat.
Proof.
  destruct slider_defaults_returned as [fr Hret].
  pose proof (calculator_run 12 0.5 180 constants fr Hret) as Hrun.
  exists (x_axis fr), (I_far_axis fr), (I_full_axis fr). split; [exact Hrun |].
  destruct (range_axis_fixed 12 0.5 180 constants constants _ _ _ Hrun)
    as (Hx & Hlen & _).
  split; assumption.
Defined.

(** C9: for every valid input the far-field intensity at every range sample
    [x] is [SL - 20 * log10 x], over the 200 positive samples of
    [np.linspace(0.01, 5, 200)]; it therefore does not depend on the
    frequency or on the radius: another valid frequency and radius with the
    same source level give the same far-field sequence. *)
Theorem far_field_closed_form (f a SL : R) (st : kernel) :
  valid_input f a SL -> has_constants st ->
  exists xs far full,
    far_and_full_field_intensity_on_axis f a SL st = (st, inr (xs, far, full)) /\
    xs = np_linspace 0.01 5 200 /\
    length far = 200%nat /\
    (forall i, (i < 200)%nat ->
       0 < nth i xs 0 /\
       nth i far NaN = Fin (SL - 20 * log10 (nth i xs 0))) /\
    far = map (fun x => Fin (SL - 20 * log10 x)) xs /\
    forall f' a', valid_input f' a' SL ->
      exists full',
        far_and_full_field_intensity_on_axis f' a' SL st = (st, inr (xs, far, full')).
Proof.
  intros Hv Hst.
  assert (Hclosed : forall g b, valid_input g b SL -> forall fr, returned g b SL st fr ->
            I_far_axis fr = map (fun x => Fin (SL - 20 * log10 x)) (np_linspace 0.01 5 200)).
  { intros g b Hgb fr Hret. destruct (valid_nonzero g b SL Hgb) as [Hg Hb].
    destruct (returned_lengths g b SL st fr Hret) as (Hlx & Hlf & _).
    pose proof Hret as (_ & _ & _ & _ & _ & Hx & _).
    apply nth_ext with (d := NaN) (d' := NaN).
    - now rewrite Hlf, length_map, np_linspace_length.
    - intros i Hi. rewrite Hlf in Hi.
      rewrite nth_map_lt with (d' := 0) by now rewrite np_linspace_length.
      rewrite <- Hx.
      now apply (far_axis_nth g b SL st fr i). }
  destruct (valid_nonzero f a SL Hv) as [Hf Ha].
  destruct (valid_returned f a SL st Hv Hst) as [fr Hret].
  pose proof Hret as (_ & _ & _ & _ & _ & Hx & _).
  destruct (returned_lengths f a SL st fr Hret) as (_ & Hlf & _).
  exists (x_axis fr), (I_far_axis fr), (I_full_axis fr).
  split; [now apply calculator_run |].
  split; [exact Hx |]. split; [exact Hlf |]. split; [| split].
  - intros i Hi. split.
    + rewrite Hx. now apply x_axis_pos.
    + now apply (far_axis_nth f a SL st fr i).
  - rewrite (Hclosed f a Hv fr Hret), Hx. reflexivity.
  - intros f' a' Hv'.
    destruct (valid_returned f' a' SL st Hv' Hst) as [fr' Hret'].
    pose proof Hret' as (_ & _ & _ & _ & _ & Hx' & _).
    exists (I_full_axis fr').
    rewrite (calculator_run f' a' SL st fr' Hret').
    rewrite (Hclosed f a Hv fr Hret), (Hclosed f' a' Hv' fr' Hret'), Hx, Hx'.
    reflexivity.
Qed.

Lemma far_field_closed_form_witness :
  exists xs far full,
    far_and_full_field_intensity_on_axis 12 0.5 180 constants
    = (constants, inr (xs, far, full)) /\
    xs = np_linspace 0.01 5 200 /\
    far = map (fun x => Fin (180 - 20 * log10 x)) xs.
Proof.
  destruct (far_field_closed_form 12 0.5 180 constants)
    as (xs & far & full & Hrun & Hxs & _ & _ & Hfar & _).
  - unfold valid_input. lra.
  - split; reflexivity.
  - exists xs, far, full. split; [exact Hrun |]. split; [exact Hxs | exact Hfar].
Defined.

(** C8: for every valid input the far-field pressure decays as the inverse of
    the range over the 200 positive samples of [np.linspace(0.01, 5, 200)]:
    [P_far(x) * x] is the same at all range samples (it is [10^(SL/20)]), and
    the far-field intensities at two samples [x], [x'] differ by
    [20 * log10 (x' / x)]. *)
Theorem far_field_inverse_range (f a SL : R) (st : kernel) :
  valid_input f a SL -> has_constants st ->
  exists fr,
    locals f a SL st = (st, inr fr) /\
    x_axis fr = np_linspace 0.01 5 200 /\
    length (P_far_axis fr) = 200%nat /\
    length (I_far_axis fr) = 200%nat /\
    (forall i, (i < 200)%nat ->
       0 < nth i (x_axis fr) 0 /\
       nth i (P_far_axis fr) 0 * nth i (x_axis fr) 0 = Rpower 10 (SL / 20)) /\
    forall i j, (i < 200)%nat -> (j < 200)%nat ->
      nth i (P_far_axis fr) 0 * nth i (x_axis fr) 0 =
      nth j (P_far_axis fr) 0 * nth j (x_axis fr) 0 /\
      exists u v,
        nth i (I_far_axis fr) NaN = Fin u /\
        nth j (I_far_axis fr) NaN = Fin v /\
        u - v = 20 * log10 (nth j (x_axis fr) 0 / nth i (x_axis fr) 0).
Proof.
  intros Hv Hst. destruct (valid_nonzero f a SL Hv) as [Hf Ha].
  destruct (valid_returned f a SL st Hv Hst) as [fr Hret].
  exists fr. split; [apply Hret |].
  pose proof Hret as (_ & _ & _ & _ & _ & Hx & HP & _).
  destruct (returned_lengths f a SL st fr Hret) as (Hlx & Hlf & _).
  assert (Hpos : forall i, (i < 200)%nat -> 0 < nth i (x_axis fr) 0)
    by (intros i Hi; rewrite Hx; now apply x_axis_pos).
  split; [exact Hx |]. split; [now rewrite HP, length_map |].
  split; [exact Hlf |]. split.
  - intros i Hi. specialize (Hpos i Hi). split; [exact Hpos |].
    destruct (far_axis_nth f a SL st fr i Hst Hf Ha Hret Hi) as [-> _].
    field. lra.
  - intros i j Hi Hj.
    destruct (far_axis_nth f a SL st fr i Hst Hf Ha Hret Hi) as [HPi HIi].
    destruct (far_axis_nth f a SL st fr j Hst Hf Ha Hret Hj) as [HPj HIj].
    pose proof (Hpos i Hi) as Hxi. pose proof (Hpos j Hj) as Hxj.
    split.
    + rewrite HPi, HPj. field. split; lra.
    + eexists. eexists. split; [exact HIi |]. split; [exact HIj |].
      rewrite log10_div by assumption. ring.
Qed.

Lemma far_field_inverse_range_witness :
  exists fr,
    locals 12 0.5 180 constants = (constants, inr fr) /\
    nth 0 (P_far_axis fr) 0 * nth 0 (x_axis fr) 0 = Rpower 10 (180 / 20) /\
    nth 0 (P_far_axis fr) 0 * nth 0 (x_axis fr) 0 =
    nth 199 (P_far_axis fr) 0 * nth 199 (x_axis fr) 0.
Proof.
  destruct (far_field_inverse_range 12 0.5 180 constants)
    as (fr & Hrun & _ & _ & _ & Hconst & Hinv).
  - unfold valid_input. lra.
  - split; reflexivity.
  - exists fr. split; [exact Hrun |]. split.
    + apply (Hconst 0%nat). lia.
    + apply (Hinv 0%nat 199%nat); lia.
Defined.

(** C4: for every valid input the far-field intensity decreases strictly with
    range: at consecutive samples [x_i < x_(i+1)] the intensity at [x_i] is
    greater than the intensity at [x_(i+1)]. *)
Theorem far_field_decreasing (f a SL : R) (st : kernel) :
  valid_input f a SL -> has_constants st ->
  exists xs far full,
    far_and_full_field_intensity_on_axis f a SL st = (st, inr (xs, far, full)) /\
    forall i, (i + 1 < 200)%nat ->
      nth i xs 0 < nth (i + 1) xs 0 /\
      xlt (nth (i + 1) far NaN) (nth i far NaN).
Proof.
  intros Hv Hst. destruct (valid_nonzero f a SL Hv) as [Hf Ha].
  destruct (valid_returned f a SL st Hv Hst) as [fr Hret].
  exists (x_axis fr), (I_far_axis fr), (I_full_axis fr).
  split; [now apply calculator_run |]. intros i Hi.
  pose proof Hret as (_ & _ & _ & _ & _ & Hx & _).
  assert (Hinc : nth i (x_axis fr) 0 < nth (i + 1) (x_axis fr) 0)
    by (rewrite Hx; now apply x_axis_increasing).
  split; [exact Hinc |].
  destruct (far_axis_nth f a SL st fr i Hst Hf Ha Hret) as [_ ->]; [lia |].
  destruct (far_axis_nth f a SL st fr (i + 1) Hst Hf Ha Hret) as [_ ->]; [lia |].
  cbn [xlt].
  assert (Hpos : 0 < nth i (x_axis fr) 0) by (rewrite Hx; apply x_axis_pos; lia).
  pose proof (log10_lt _ _ Hpos Hinc). lra.
Qed.

Lemma far_field_decreasing_witness :
  exists xs far full,
    far_and_full_field_intensity_on_axis 12 0.5 180 constants
    = (constants, inr (xs, far, full)) /\
    xlt (nth 1 far NaN) (nth 0 far NaN).
Proof.
  destruct (far_field_decreasing 12 0.5 180 constants)
    as (xs & far & full & Hrun & Hdec).
  - unfold valid_input. lra.
  - split; reflexivity.
  - exists xs, far, full. split; [exact Hrun |].
    apply (Hdec 0%nat). lia.
Defined.

Lemma full_factor_nonneg (k a t : R) : 0 <= (2 / (k * a * a)) ^ 2 * (2 - 2 * cos t).
Proof.
  apply Rmult_le_pos; [apply pow2_ge_0 |].
  apply (one_minus_cos_bounds t).
Qed.



Lemma full_close_to_far (f a SL : R) (st : kernel) (fr : frame) (i : nat) :
  valid_input f a SL -> has_constants st -> returned f a SL st fr ->
  (i < 200)%nat ->
  2 * (2 * a) <= nth i (x_axis fr) 0 ->
  PI * a ^ 2 / wavelength st f <= nth i (x_axis fr) 0 ->
  xwithin 1 (nth i (I_full_axis fr) NaN) (nth i (I_far_axis fr) NaN).
Proof.
  intros Hv Hst Hret Hi Hnear Hray.
  destruct (valid_nonzero f a SL Hv) as [Hf Ha].
  destruct (far_axis_nth f a SL st fr i Hst Hf Ha Hret Hi) as [_ ->].
  destruct (full_axis_nth f a SL st fr i Hst Hf Ha Hret Hi) as [-> Hk].
  pose proof Hret as (_ & _ & _ & _ & _ & Hx & _).
  assert (Hxpos : 0 < nth i (x_axis fr) 0) by (rewrite Hx; now apply x_axis_pos).
  set (x := nth i (x_axis fr) 0) in *.
  destruct Hv as ([Hf1 _] & [Ha1 _] & _). destruct Hst as [_ Hc].
  pose proof PI_RGT_0 as Hpi.
  assert (Hkpos : 0 < k fr).
  { assert (Hpf : 0 < PI * f) by (apply Rmult_lt_0_compat; lra).
    rewrite Hk. lra. }
  assert (Hka : k fr * (a * a) <= 2 * x).
  { unfold wavelength in Hray. rewrite Hc in Hray.
    replace (k fr * (a * a)) with (2 * (PI * a ^ 2 / (1500 / (f * 1000))))
      by (rewrite Hk; field; lra).
    lra. }
  pose proof (pressure_ratio_bounds (k fr) a x Hkpos ltac:(lra) ltac:(lra) Hka) as HQ.
  set (G := (2 / (k fr * a * a)) ^ 2 * (2 - 2 * cos (k fr * detour a x))) in *.
  set (Q := x ^ 2 * G) in *.
  pose proof (Rpower10_pos (SL / 20)) as Hp.
  set (S := Rpower 10 (SL / 20)) in *.
  assert (E : S ^ 2 * G = S / x * (S / x) * Q) by (unfold Q; field; lra).
  assert (Hq : 0 < S / x) by now apply Rdiv_lt_0_compat.
  assert (HQpos : 0 < Q) by lra.
  assert (Hqq : 0 < S / x * (S / x)) by now apply Rmult_lt_0_compat.
  unfold dB. rewrite E.
  rewrite np_log10_pos by now apply Rmult_lt_0_compat.
  cbn [xscale xwithin].
  rewrite !log10_mult by assumption.
  rewrite log10_div by assumption. unfold S at 1 2. rewrite log10_Rpower.
  pose proof (dB_gap Q HQ) as Hgap.
  apply Rabs_def1; lra.
Qed.

(** C5, as the code has it: for every valid input, at every range sample [r]
    with [r >= 2 * (2 a)] and [r >= pi a^2 / lambda] the full-field and the
    far-field intensity differ by less than 1 dB; the last samples of the two
    sequences differ by less than 1 dB when the last range, 5 m, meets both
    conditions. *)
Theorem far_field_agreement (f a SL : R) (st : kernel) :
  valid_input f a SL -> has_constants st ->
  exists xs far full,
    far_and_full_field_intensity_on_axis f a SL st = (st, inr (xs, far, full)) /\
    (forall i, (i < 200)%nat ->
       2 * (2 * a) <= nth i xs 0 ->
       PI * a ^ 2 / wavelength st f <= nth i xs 0 ->
       xwithin 1 (nth i full NaN) (nth i far NaN)) /\
    (2 * (2 * a) <= 5 ->
     PI * a ^ 2 / wavelength st f <= 5 ->
     xwithin 1 (last full NaN) (last far NaN)).
Proof.
  intros Hv Hst. destruct (valid_returned f a SL st Hv Hst) as [fr Hret].
  exists (x_axis fr), (I_far_axis fr), (I_full_axis fr).
  split; [now apply calculator_run |]. split.
  - intros i Hi. now apply (full_close_to_far f a SL st fr i).
  - intros Hnear Hray.
    destruct (returned_lengths f a SL st fr Hret) as (_ & Hlf & Hlg).
    pose proof Hret as (_ & _ & _ & _ & _ & Hx & _).
    rewrite !last_nth, Hlf, Hlg.
    assert (H5 : nth (200 - 1) (x_axis fr) 0 = 5).
    { rewrite Hx, x_axis_nth by lia.
      replace (INR (200 - 1)) with 199 by (rewrite INR_IZR_INZ; reflexivity).
      lra. }
    apply (full_close_to_far f a SL st fr (200 - 1)); auto; try lia; rewrite H5; assumption.
Qed.

Lemma far_field_agreement_witness :
  exists xs far full,
    far_and_full_field_intensity_on_axis 1 0.5 180 constants
    = (constants, inr (xs, far, full)) /\
    xwithin 1 (last full NaN) (last far NaN).
Proof.
  destruct (far_field_agreement 1 0.5 180 constants)
    as (xs & far & full & Hrun & _ & Hlast).
  - unfold valid_input. lra.
  - split; reflexivity.
  - exists xs, far, full. split; [exact Hrun |].
    apply Hlast.
    + lra.
    + unfold wavelength. cbn [c constants]. pose proof PI_4. lra.
Defined.

(** Against C5 as stated for every valid input: at 200 kHz and a radius of
    1 m the last range, 5 m, is still deep in the near field
    ([pi a^2 / lambda] is about 419 m), and the last samples of the two
    sequences are not within 1 dB of each other (the full field is at least
    10 dB under the far field there, or minus infinity). *)
Lemma last_samples_far_apart :
  valid_input 200 1 180 /\ has_constants constants /\
  exists xs far full,
    far_and_full_field_intensity_on_axis 200 1 180 constants
    = (constants, inr (xs, far, full)) /\
    ~ xwithin 1 (last full NaN) (last far NaN).
Proof.
  assert (Hv : valid_input 200 1 180) by (unfold valid_input; lra).
  split; [exact Hv |]. split; [apply constants_hold |].
  destruct (valid_returned 200 1 180 constants Hv constants_hold) as [fr Hret].
  exists (x_axis fr), (I_far_axis fr), (I_full_axis fr).
  split; [now apply calculator_run |].
  destruct (returned_lengths _ _ _ _ _ Hret) as (_ & Hlf & Hlg).
  pose proof Hret as (_ & _ & _ & _ & _ & Hx & _).
  rewrite !last_nth, Hlf, Hlg.
  assert (Hi : (200 - 1 < 200)%nat) by lia.
  assert (H1 : (1 : R) <> 0) by lra. assert (H200 : (200 : R) <> 0) by lra.
  destruct (far_axis_nth 200 1 180 constants fr _ constants_hold H200 H1 Hret Hi) as [_ ->].
  destruct (full_axis_nth 200 1 180 constants fr _ constants_hold H200 H1 Hret Hi) as [-> Hk].
  assert (H5 : nth (200 - 1) (x_axis fr) 0 = 5).
  { rewrite Hx, x_axis_nth by lia.
    replace (INR (200 - 1)) with 199 by (rewrite INR_IZR_INZ; reflexivity).
    lra. }
  rewrite H5.
  pose proof PI_gt_3 as Hpi.
  assert (Hk800 : 800 < k fr) by (rewrite Hk; lra).
  pose proof (one_minus_cos_bounds (k fr * detour 1 5)) as [Hg0 Hg4].
  set (g := 2 - 2 * cos (k fr * detour 1 5)) in *.
  assert (Hinv : 0 < / k fr < / 800).
  { split; [apply Rinv_0_lt_compat; lra |].
    apply Rinv_lt_contravar; [| assumption]. apply Rmult_lt_0_compat; lra. }
  set (G := (2 / (k fr * 1 * 1)) ^ 2 * g).
  assert (EG : G = 4 * (/ k fr * / k fr) * g) by (unfold G; field; lra).
  assert (HG : 0 <= G < / 250).
  { rewrite EG. split; [| nra].
    repeat apply Rmult_le_pos; lra. }
  pose proof (Rpower10_pos (180 / 20)) as Hp.
  set (S := Rpower 10 (180 / 20)) in *.
  destruct HG as [[HGpos | HGzero] HGup].
  - unfold dB. rewrite np_log10_pos by (apply Rmult_lt_0_compat; [nra | assumption]).
    cbn [xscale xwithin].
    replace (S ^ 2) with (S * S) by ring.
    assert (HSS : 0 < S * S) by now apply Rmult_lt_0_compat.
    rewrite (log10_mult (S * S) G HSS HGpos), (log10_mult S S Hp Hp).
    unfold S. rewrite log10_Rpower.
    assert (Hlog : log10 (25 * G) < -1).
    { replace (-1) with (log10 (/ 10)) by (rewrite log10_inv by lra; unfold log10; field;
                                         apply Rgt_not_eq, ln10_pos).
      apply log10_lt; lra. }
    rewrite log10_mult in Hlog by lra.
    replace 25 with (5 * 5) in Hlog by lra.
    rewrite log10_mult in Hlog by lra.
    intros Habs. apply Rabs_def2 in Habs. lra.
  - rewrite <- HGzero, Rmult_0_r. unfold dB.
    rewrite np_log10_zero, xscale_10_NegInf. cbn. tauto.
Qed.



Lemma Rabs_nonzero (m x : R) : 0 < m -> m <= Rabs x -> x <> 0.
Proof. intros Hm Hx ->. rewrite Rabs_R0 in Hx. lra. Qed.



(** ** State *)

Lemma keeps_bind {A B} (m : NB A) (h : A -> NB B) :
  keeps_globals m -> (forall x, keeps_globals (h x)) -> keeps_globals (bind m h).
Proof.
  intros Hm Hh st. unfold bind. specialize (Hm st).
  destruct (m st) as [st1 [e | x]]; cbn [fst] in *; [exact Hm |].
  destruct (Hh x st1) as [H1 H2]. destruct Hm as [H3 H4].
  split; congruence.
Qed.

Lemma keeps_set_figures (upd : list figure -> list figure) :
  keeps_globals (set_figures upd).
Proof. intros st. split; reflexivity. Qed.

Lemma calculator_state (f a SL : R) (st : kernel) :
  fst (far_and_full_field_intensity_on_axis f a SL st) = st.
Proof.
  unfold far_and_full_field_intensity_on_axis, bind.
  pose proof (locals_state f a SL st) as H.
  destruct (locals f a SL st) as [st1 [e | fr]]; exact H.
Qed.

Lemma keeps_calculator (f a SL : R) :
  keeps_globals (far_and_full_field_intensity_on_axis f a SL).
Proof. intros st. now rewrite calculator_state. Qed.

Lemma keeps_update (f a SL : R) :
  keeps_globals (update_far_and_full_field_intensity_on_axis f a SL).
Proof.
  unfold update_far_and_full_field_intensity_on_axis.
  apply keeps_bind; [apply keeps_calculator |].
  intros [[xs far] full].
  unfold plt_close_all, plt_figure, plt_plot, plt_xlabel, plt_ylabel, plt_grid, on_current.
  repeat (apply keeps_bind; [apply keeps_set_figures | intros _]).
  apply keeps_set_figures.
Qed.

Lemma calculator_reads_globals (f a SL : R) (st st' : kernel) :
  rho0 st' = rho0 st -> c st' = c st ->
  snd (far_and_full_field_intensity_on_axis f a SL st') =
  snd (far_and_full_field_intensity_on_axis f a SL st).
Proof.
  intros Hrho Hc.
  unfold far_and_full_field_intensity_on_axis, locals, bind, global, pydiv, raise, ret.
  cbv beta iota. rewrite Hc.
  destruct (Req_dec_T (c st) 0); [reflexivity |].
  cbv beta iota. rewrite Hrho.
  destruct (Req_dec_T _ 0); reflexivity.
Qed.

(** C7: the calculator is a function of its three inputs (and of the two
    constants it reads) that modifies nothing.  It leaves the notebook state
    as it found it, whether it returns or raises; its outcome is the same in
    any state with the same [rho0] and [c], whatever has been plotted; a
    second invocation with the same inputs gives the same outcome as the
    first, also when the plotting callback has run in between. *)
Theorem calculator_is_pure (f a SL : R) (st : kernel) :
  fst (far_and_full_field_intensity_on_axis f a SL st) = st /\
  (forall st', rho0 st' = rho0 st -> c st' = c st ->
     snd (far_and_full_field_intensity_on_axis f a SL st') =
     snd (far_and_full_field_intensity_on_axis f a SL st)) /\
  far_and_full_field_intensity_on_axis f a SL
    (fst (far_and_full_field_intensity_on_axis f a SL st)) =
  far_and_full_field_intensity_on_axis f a SL st /\
  (forall f' a' SL',
     snd (far_and_full_field_intensity_on_axis f a SL
            (fst (update_far_and_full_field_intensity_on_axis f' a' SL' st))) =
     snd (far_and_full_field_intensity_on_axis f a SL st)).
Proof.
  split; [apply calculator_state |]. split; [| split].
  - intros st'. apply calculator_reads_globals.
  - now rewrite calculator_state.
  - intros f' a' SL'.
    destruct (keeps_update f' a' SL' st) as [Hrho Hc].
    now apply calculator_reads_globals.
Qed.

Lemma calculator_is_pure_witness :
  snd (far_and_full_field_intensity_on_axis 12 0.5 180
         (mk_kernel 1 1500 [new_figure 1])) =
  snd (far_and_full_field_intensity_on_axis 12 0.5 180 constants).
Proof.
  destruct (calculator_is_pure 12 0.5 180 constants) as (_ & Hsame & _).
  apply Hsame; reflexivity.
Defined.

(** ** The two outcomes in exact arithmetic *)

Lemma denominator_general (rho c f a : R) :
  c <> 0 ->
  (rho * c * (2 * PI * f * 1000 / c) * a * a / 2 = 0 <-> rho = 0 \/ f = 0 \/ a = 0).
Proof.
  intros Hc. pose proof PI_RGT_0 as Hpi.
  replace (rho * c * (2 * PI * f * 1000 / c) * a * a / 2)
    with (1000 * PI * (rho * (f * (a * a)))) by (field; assumption).
  split.
  - intros H.
    assert (H' : rho * (f * (a * a)) = 0).
    { apply Rmult_integral in H. destruct H as [H | H]; [lra | exact H]. }
    apply Rmult_integral in H'. destruct H' as [H' | H']; [now left |].
    apply Rmult_integral in H'. destruct H' as [H' | H']; [now right; left |].
    apply Rmult_integral in H'. tauto.
  - intros [-> | [-> | ->]]; ring.
Qed.

Lemma calculator_raise (f a SL : R) (st : kernel) :
  locals f a SL st = (st, inl ZeroDivisionError) ->
  far_and_full_field_intensity_on_axis f a SL st = (st, inl ZeroDivisionError).
Proof.
  intros H. unfold far_and_full_field_intensity_on_axis, bind. now rewrite H.
Qed.

Lemma locals_raises_c (f a SL : R) (st : kernel) :
  c st = 0 -> locals f a SL st = (st, inl ZeroDivisionError).
Proof.
  intros Hc. unfold locals, bind, global. now rewrite (pydiv_zero _ _ _ Hc).
Qed.

(** In exact arithmetic the calculator raises at a zero and returns
    otherwise. *)
Lemma calculator_outcome (f a SL : R) (st : kernel) :
  ((c st = 0 \/ rho0 st = 0 \/ f = 0 \/ a = 0) /\
   far_and_full_field_intensity_on_axis f a SL st = (st, inl ZeroDivisionError)) \/
  ((c st <> 0 /\ rho0 st <> 0 /\ f <> 0 /\ a <> 0) /\
   exists fr, returned f a SL st fr).
Proof.
  destruct (Req_dec_T (c st) 0) as [Hc | Hc].
  { left. split; [now left |].
    apply calculator_raise, locals_raises_c, Hc. }
  pose proof (denominator_general (rho0 st) (c st) f a Hc) as Hden.
  destruct (Req_dec_T (rho0 st * c st * (2 * PI * f * 1000 / c st) * a * a / 2) 0)
    as [Hz | Hnz].
  - left. split; [tauto |].
    apply calculator_raise, locals_raises; assumption.
  - right. split; [| now apply locals_run].
    repeat split; try assumption; intros H; apply Hnz, Hden; tauto.
Qed.

(** ** The callback *)

Lemma update_run (f a SL : R) (st : kernel) (xs : list R) (far full : list xreal) :
  far_and_full_field_intensity_on_axis f a SL st = (st, inr (xs, far, full)) ->
  update_far_and_full_field_intensity_on_axis f a SL st =
  (mk_kernel (rho0 st) (c st) [two_curves xs far full], inr tt).
Proof.
  intros Hrun. unfold update_far_and_full_field_intensity_on_axis, bind.
  rewrite Hrun. reflexivity.
Qed.


Lemma keeps_constants {A} (m : NB A) (st : kernel) :
  keeps_globals m -> has_constants st -> has_constants (fst (m st)).
Proof.
  intros Hm [Hrho Hc]. destruct (Hm st) as [H1 H2].
  split; congruence.
Qed.

(** The outcome of the callback in a state with the cell's constants, for a
    valid input: the figure list is replaced by the two curves. *)
Lemma update_valid (f a SL : R) (st : kernel) :
  valid_input f a SL -> has_constants st ->
  exists fr,
    returned f a SL st fr /\
    update_far_and_full_field_intensity_on_axis f a SL st =
    (mk_kernel 1 1500 [two_curves (x_axis fr) (I_far_axis fr) (I_full_axis fr)], inr tt).
Proof.
  intros Hv Hst. destruct (valid_returned f a SL st Hv Hst) as [fr Hret].
  exists fr. split; [exact Hret |].
  rewrite (update_run f a SL st _ _ _ (calculator_run f a SL st fr Hret)).
  destruct Hst as [-> ->]. reflexivity.
Qed.

(** The frame depends on the state through [rho0] and [c] only. *)
Lemma returned_same_globals (f a SL : R) (st st' : kernel) (fr fr' : frame) :
  rho0 st' = rho0 st -> c st' = c st ->
  returned f a SL st fr -> returned f a SL st' fr' -> fr' = fr.
Proof.
  intros Hrho Hc Hret Hret'.
  pose proof (calculator_reads_globals f a SL st st' Hrho Hc) as Hsnd.
  unfold far_and_full_field_intensity_on_axis, bind in Hsnd.
  destruct Hret as [Hrun _]. destruct Hret' as [Hrun' _].
  assert (H : snd (locals f a SL st') = snd (locals f a SL st)).
  { unfold locals, bind, global, pydiv, raise, ret. cbv beta iota. rewrite Hc.
    destruct (Req_dec_T (c st) 0); [reflexivity |].
    cbv beta iota. rewrite Hrho.
    destruct (Req_dec_T _ 0); reflexivity. }
  rewrite Hrun, Hrun' in H. cbn in H. now injection H.
Qed.

Lemma update_latest (f a SL g b L : R) (st : kernel) :
  valid_input f a SL -> has_constants st ->
  update_far_and_full_field_intensity_on_axis f a SL
    (fst (update_far_and_full_field_intensity_on_axis g b L st)) =
  update_far_and_full_field_intensity_on_axis f a SL st.
Proof.
  intros Hv Hst.
  set (st1 := fst (update_far_and_full_field_intensity_on_axis g b L st)).
  assert (Hst1 : has_constants st1) by (apply keeps_constants; [apply keeps_update | exact Hst]).
  destruct (update_valid f a SL st Hv Hst) as (fr & Hret & ->).
  destruct (update_valid f a SL st1 Hv Hst1) as (fr1 & Hret1 & ->).
  assert (E : fr1 = fr).
  { apply (returned_same_globals f a SL st st1); auto.
    - destruct Hst as [-> _], Hst1 as [-> _]. reflexivity.
    - destruct Hst as [_ ->], Hst1 as [_ ->]. reflexivity. }
  now rewrite E.
Qed.

(** X1: when the calculator returns, the callback leaves exactly one figure,
    number 1, whatever was plotted before: the far-field curve in blue and
    the full-field curve in red over the range axis, both of width 2 and
    labelled, with the two axis labels and the grid on; the globals are
    untouched. *)
Theorem callback_draws_two_curves (f a SL : R) (st st' : kernel)
    (xs : list R) (far full : list xreal) :
  far_and_full_field_intensity_on_axis f a SL st = (st', inr (xs, far, full)) ->
  update_far_and_full_field_intensity_on_axis f a SL st =
  (mk_kernel (rho0 st) (c st)
     [mk_figure 1
        [mk_line xs far "Far-field intensity along main beam axis" 2 "b";
         mk_line xs full "Full-field intensity along main beam axis" 2 "r"]
        "Range (m)" "Intensity (dB re 1μPa)" true],
   inr tt).
Proof.
  intros Hrun.
  pose proof (calculator_state f a SL st) as Hst. rewrite Hrun in Hst. cbn in Hst.
  subst st'. now apply update_run.
Qed.

Lemma callback_draws_two_curves_witness :
  exists xs far full,
    update_far_and_full_field_intensity_on_axis 12 0.5 180
      (mk_kernel 1 1500 [new_figure 7]) =
    (mk_kernel 1 1500 [two_curves xs far full], inr tt).
Proof.
  destruct (valid_returned 12 0.5 180 (mk_kernel 1 1500 [new_figure 7])
              slider_defaults_valid) as [fr Hret]; [split; reflexivity |].
  exists (x_axis fr), (I_far_axis fr), (I_full_axis fr).
  apply (callback_draws_two_curves 12 0.5 180 _ _ _ _ _ (calculator_run _ _ _ _ fr Hret)).
Defined.



(** X3: the latest input wins.  For a valid input, the callback run after any
    earlier run of the callback (with any arguments, raising or not) gives
    the state and the outcome it gives when run alone; in particular running
    it twice with the same input is running it once. *)
Theorem callback_latest_input_wins (f a SL : R) (st : kernel) :
  valid_input f a SL -> has_constants st ->
  forall g b L,
    update_far_and_full_field_intensity_on_axis f a SL
      (fst (update_far_and_full_field_intensity_on_axis g b L st)) =
    update_far_and_full_field_intensity_on_axis f a SL st.
Proof. intros Hv Hst g b L. now apply update_latest. Qed.

Lemma callback_latest_input_wins_witness :
  update_far_and_full_field_intensity_on_axis 12 0.5 180
    (fst (update_far_and_full_field_intensity_on_axis 200 1 100 constants)) =
  update_far_and_full_field_intensity_on_axis 12 0.5 180 constants.
Proof.
  apply (callback_latest_input_wins 12 0.5 180 constants).
  - unfold valid_input. lra.
  - split; reflexivity.
Defined.

(** ** More on the full field *)

Lemma log10_le (x y : R) : 0 < x -> x <= y -> log10 x <= log10 y.
Proof.
  intros Hx [Hlt | ->]; [left; now apply log10_lt | right; reflexivity].
Qed.

Lemma log10_10 : log10 10 = 1.
Proof. unfold log10. field. apply Rgt_not_eq, ln10_pos. Qed.

Lemma xle_Fin (u v : R) : u <= v -> xle (Fin u) (Fin v).
Proof.
  intros [Hlt | ->]; [left; exact Hlt | right; split; [reflexivity | discriminate]].
Qed.

Lemma sin_sqr_lt (t : R) : 0 < t -> sin t * sin t < t * t.
Proof.
  intros Ht. pose proof (sin_lt_x t Ht) as Hup.
  assert (Hlow : - t < sin t).
  { destruct (Rle_dec t PI) as [Hle | Hgt].
    - pose proof (sin_ge_0 t (Rlt_le _ _ Ht) Hle). lra.
    - pose proof (SIN_bound t) as [Hs _]. pose proof PI_gt_3. lra. }
  nra.
Qed.

(** The full-field pressure stays under the far-field pressure at every
    positive range. *)
Lemma pressure_ratio_lt_1 (k a x : R) :
  0 < k -> 0 < a -> 0 < x ->
  x ^ 2 * ((2 / (k * a * a)) ^ 2 * (2 - 2 * cos (k * detour a x))) < 1.
Proof.
  intros Hk Ha Hx.
  destruct (detour_facts a x Ha Hx) as [Hxy Hprod].
  unfold detour. set (y := sqrt (np_square x + np_square a)) in *.
  set (t := k * (y - x) / 2).
  assert (Ht0 : 0 < t) by (unfold t; nra).
  pose proof (sin_sqr_lt t Ht0) as Hsin.
  rewrite one_minus_cos. fold t.
  set (s := sin t) in *.
  assert (Hd : 0 < t * t * ((y + x) * (y + x))) by (repeat apply Rmult_lt_0_compat; lra).
  replace (x ^ 2 * ((2 / (k * a * a)) ^ 2 * (4 * (s * s))))
    with (4 * (x * x) * (s * s) / (t * t * ((y + x) * (y + x)))).
  - apply Rmult_lt_reg_r with (t * t * ((y + x) * (y + x))); [exact Hd |].
    unfold Rdiv. rewrite Rmult_assoc, Rinv_l, Rmult_1_r, Rmult_1_l by lra.
    assert (H1 : 4 * (x * x) < (y + x) * (y + x)) by nra.
    assert (H2 : 0 <= s * s) by nra.
    assert (H3 : 0 < x * x) by nra.
    nra.
  - replace (k * a * a) with (k * ((y - x) * (y + x))) by (rewrite Hprod; ring).
    unfold t. field. repeat split; lra.
Qed.

Lemma valid_wavenumber (f a SL : R) (st : kernel) (fr : frame) :
  valid_input f a SL -> has_constants st -> returned f a SL st fr ->
  k fr = 2 * PI * f * 1000 / 1500 /\ 0 < k fr /\ 0 < a.
Proof.
  intros ([Hf _] & [Ha _] & _) [_ Hc] (_ & Hom & Hk & _).
  pose proof PI_RGT_0 as Hpi.
  assert (Hpf : 0 < PI * f) by (apply Rmult_lt_0_compat; lra).
  rewrite Hk, Hom, Hc. repeat split; lra.
Qed.

(** X12: whenever the body returns, the amplitude of every full-field
    pressure sample is [2 |rho0 c U0| |sin (k (sqrt (x^2 + a^2) - x) / 2)|],
    the on-axis field of a baffled piston. *)
Theorem full_field_amplitude (f a SL : R) (st st' : kernel) (fr : frame) :
  locals f a SL st = (st', inr fr) ->
  forall i, (i < 200)%nat ->
    Complex.abs (nth i (P_full_axis fr) (Complex.mk 0 0)) =
    2 * Rabs (rho0 st * c st * U0 fr)
      * Rabs (sin (k fr * (sqrt (nth i (x_axis fr) 0 ^ 2 + a ^ 2) - nth i (x_axis fr) 0) / 2)).
Proof.
  intros Hrun i Hi. apply locals_inv in Hrun as [_ Hret].
  pose proof Hret as (_ & _ & _ & _ & _ & Hx & _ & _ & HP & _).
  assert (Hlen : length (x_axis fr) = 200%nat) by (rewrite Hx; apply np_linspace_length).
  rewrite HP, nth_map_lt with (d' := 0) by lia.
  set (x := nth i (x_axis fr) 0).
  replace (sqrt (x ^ 2 + a ^ 2) - x) with (detour a x)
    by (unfold detour, np_square; do 2 f_equal; ring).
  set (p := full_sample (rho0 st) (c st) (U0 fr) (k fr) a x).
  assert (H2 : Complex.abs p ^ 2 =
               (2 * Rabs (rho0 st * c st * U0 fr) * Rabs (sin (k fr * detour a x / 2))) ^ 2).
  { unfold p. rewrite full_sample_abs2, one_minus_cos.
    rewrite !Rpow_mult_distr, !pow2_abs. ring. }
  assert (Hp : 0 <= Complex.abs p) by apply sqrt_pos.
  rewrite <- (sqrt_pow2 _ Hp), H2. apply sqrt_pow2.
  repeat apply Rmult_le_pos; try apply Rabs_pos. lra.
Qed.

Lemma full_field_amplitude_witness :
  exists fr,
    locals 12 0.5 180 constants = (constants, inr fr) /\
    Complex.abs (nth 0 (P_full_axis fr) (Complex.mk 0 0)) =
    2 * Rabs (rho0 constants * c constants * U0 fr)
      * Rabs (sin (k fr * (sqrt (nth 0 (x_axis fr) 0 ^ 2 + 0.5 ^ 2) - nth 0 (x_axis fr) 0) / 2)).
Proof.
  destruct slider_defaults_returned as [fr Hret].
  exists fr. split; [apply Hret |].
  apply (full_field_amplitude 12 0.5 180 constants constants fr); [apply Hret | lia].
Defined.

(** X4: for every valid input the full-field intensity is strictly below the
    far-field intensity at every range sample. *)
Theorem full_field_below_far_field (f a SL : R) (st : kernel) :
  valid_input f a SL -> has_constants st ->
  exists xs far full,
    far_and_full_field_intensity_on_axis f a SL st = (st, inr (xs, far, full)) /\
    forall i, (i < 200)%nat -> xlt (nth i full NaN) (nth i far NaN).
Proof.
  intros Hv Hst. destruct (valid_nonzero f a SL Hv) as [Hf Ha].
  destruct (valid_returned f a SL st Hv Hst) as [fr Hret].
  exists (x_axis fr), (I_far_axis fr), (I_full_axis fr).
  split; [now apply calculator_run |]. intros i Hi.
  destruct (far_axis_nth f a SL st fr i Hst Hf Ha Hret Hi) as [_ ->].
  destruct (full_axis_nth f a SL st fr i Hst Hf Ha Hret Hi) as [-> _].
  destruct (valid_wavenumber f a SL st fr Hv Hst Hret) as (_ & Hk & Ha0).
  pose proof Hret as (_ & _ & _ & _ & _ & Hx & _).
  assert (Hxpos : 0 < nth i (x_axis fr) 0) by (rewrite Hx; now apply x_axis_pos).
  set (x := nth i (x_axis fr) 0) in *.
  pose proof (pressure_ratio_lt_1 (k fr) a x Hk Ha0 Hxpos) as HQ.
  pose proof (full_factor_nonneg (k fr) a (k fr * detour a x)) as HG.
  set (G := (2 / (k fr * a * a)) ^ 2 * (2 - 2 * cos (k fr * detour a x))) in *.
  pose proof (Rpower10_pos (SL / 20)) as Hp.
  set (S := Rpower 10 (SL / 20)) in *.
  unfold dB. destruct HG as [HGpos | <-].
  - assert (HSS : 0 < S * S) by now apply Rmult_lt_0_compat.
    replace (S ^ 2) with (S * S) by ring.
    rewrite np_log10_pos by now apply Rmult_lt_0_compat.
    cbn [xscale xlt].
    rewrite (log10_mult (S * S) G HSS HGpos), (log10_mult S S Hp Hp).
    unfold S. rewrite log10_Rpower.
    assert (Hx2 : 0 < x ^ 2) by nra.
    assert (Hlog : log10 (x ^ 2 * G) < 0).
    { rewrite <- log10_1. apply log10_lt; [now apply Rmult_lt_0_compat | exact HQ]. }
    rewrite log10_mult in Hlog by assumption.
    replace (x ^ 2) with (x * x) in Hlog by ring.
    rewrite log10_mult in Hlog by assumption. lra.
  - rewrite Rmult_0_r, np_log10_zero, xscale_10_NegInf. cbn. exact I.
Qed.

Lemma full_field_below_far_field_witness :
  exists xs far full,
    far_and_full_field_intensity_on_axis 12 0.5 180 constants
    = (constants, inr (xs, far, full)) /\
    xlt (nth 199 full NaN) (nth 199 far NaN).
Proof.
  destruct (full_field_below_far_field 12 0.5 180 constants)
    as (xs & far & full & Hrun & Hlt).
  - unfold valid_input. lra.
  - split; reflexivity.
  - exists xs, far, full. split; [exact Hrun | apply Hlt; lia].
Defined.

(** X5: for every valid input the full-field intensity is bounded over the
    whole range axis: no sample exceeds [SL + 20 log10 (4 / (k a^2))], with
    [k = 2 pi f 1000 / c], whereas the far-field curve grows without such a
    bound towards the piston. *)
Theorem full_field_bounded (f a SL : R) (st : kernel) :
  valid_input f a SL -> has_constants st ->
  exists xs far full,
    far_and_full_field_intensity_on_axis f a SL st = (st, inr (xs, far, full)) /\
    forall i, (i < 200)%nat ->
      xle (nth i full NaN)
        (Fin (SL + 20 * log10 (4 / (2 * PI * f * 1000 / 1500 * a ^ 2)))).
Proof.
  intros Hv Hst. destruct (valid_nonzero f a SL Hv) as [Hf Ha].
  destruct (valid_returned f a SL st Hv Hst) as [fr Hret].
  exists (x_axis fr), (I_far_axis fr), (I_full_axis fr).
  split; [now apply calculator_run |]. intros i Hi.
  destruct (full_axis_nth f a SL st fr i Hst Hf Ha Hret Hi) as [-> _].
  destruct (valid_wavenumber f a SL st fr Hv Hst Hret) as (Hkeq & Hk & Ha0).
  rewrite <- Hkeq.
  pose proof (one_minus_cos_bounds (k fr * detour a (nth i (x_axis fr) 0))) as [Hg0 Hg4].
  set (g := 2 - 2 * cos (k fr * detour a (nth i (x_axis fr) 0))) in *.
  assert (Hka : 0 < k fr * a ^ 2) by (apply Rmult_lt_0_compat; [| apply pow_lt]; assumption).
  assert (Hq : 0 < 4 / (k fr * a ^ 2)) by (apply Rdiv_lt_0_compat; lra).
  set (q := 4 / (k fr * a ^ 2)) in *.
  assert (EG : (2 / (k fr * a * a)) ^ 2 * g = q * q * (g / 4))
    by (unfold q; field; split; apply Rgt_not_eq; assumption).
  rewrite EG.
  pose proof (Rpower10_pos (SL / 20)) as Hp.
  set (S := Rpower 10 (SL / 20)) in *.
  assert (HSS : 0 < S * S) by now apply Rmult_lt_0_compat.
  assert (Hqq : 0 < q * q) by now apply Rmult_lt_0_compat.
  unfold dB. replace (S ^ 2) with (S * S) by ring.
  destruct Hg0 as [Hgpos | <-].
  - assert (Hg' : 0 < g / 4) by lra.
    assert (HG : 0 < q * q * (g / 4)) by now apply Rmult_lt_0_compat.
    rewrite np_log10_pos by now apply Rmult_lt_0_compat.
    cbn [xscale]. apply xle_Fin.
    rewrite (log10_mult (S * S) _ HSS HG), (log10_mult S S Hp Hp).
    rewrite (log10_mult (q * q) _ Hqq Hg'), (log10_mult q q Hq Hq).
    unfold S. rewrite log10_Rpower.
    assert (Hlog : log10 (g / 4) <= 0).
    { rewrite <- log10_1. apply log10_le; lra. }
    lra.
  - replace (q * q * (0 / 4)) with 0 by (unfold Rdiv; ring).
    rewrite Rmult_0_r, np_log10_zero, xscale_10_NegInf. left. cbn. exact I.
Qed.

Lemma full_field_bounded_witness :
  exists xs far full,
    far_and_full_field_intensity_on_axis 12 0.5 180 constants
    = (constants, inr (xs, far, full)) /\
    xle (nth 0 full NaN)
      (Fin (180 + 20 * log10 (4 / (2 * PI * 12 * 1000 / 1500 * 0.5 ^ 2)))).
Proof.
  destruct (full_field_bounded 12 0.5 180 constants)
    as (xs & far & full & Hrun & Hle).
  - unfold valid_input. lra.
  - split; reflexivity.
  - exists xs, far, full. split; [exact Hrun | apply Hle; lia].
Defined.




(** X7: for every valid input the far-field curve runs from [SL + 40] at the
    first range sample, 0.01 m, down to [SL - 20 log10 5] at the last one,
    5 m, and every sample lies between the two. *)
Theorem far_field_range (f a SL : R) (st : kernel) :
  valid_input f a SL -> has_constants st ->
  exists xs far full,
    far_and_full_field_intensity_on_axis f a SL st = (st, inr (xs, far, full)) /\
    nth 0 far NaN = Fin (SL + 40) /\
    last far NaN = Fin (SL - 20 * log10 5) /\
    forall i, (i < 200)%nat ->
      exists y, nth i far NaN = Fin y /\ SL - 20 * log10 5 <= y <= SL + 40.
Proof.
  intros Hv Hst. destruct (valid_nonzero f a SL Hv) as [Hf Ha].
  destruct (valid_returned f a SL st Hv Hst) as [fr Hret].
  exists (x_axis fr), (I_far_axis fr), (I_full_axis fr).
  split; [now apply calculator_run |].
  pose proof Hret as (_ & _ & _ & _ & _ & Hx & _).
  destruct (returned_lengths f a SL st fr Hret) as (_ & Hlf & _).
  assert (Hlog : log10 0.01 = -2).
  { replace 0.01 with (/ (10 * 10)) by lra.
    rewrite log10_inv, log10_mult, log10_10 by lra. ring. }
  split; [| split].
  - destruct (far_axis_nth f a SL st fr 0 Hst Hf Ha Hret) as [_ ->]; [lia |].
    rewrite Hx, x_axis_nth by lia. cbn [INR].
    replace (0 * (4.99 / 199) + 0.01) with 0.01 by lra.
    rewrite Hlog. f_equal. ring.
  - rewrite last_nth, Hlf.
    destruct (far_axis_nth f a SL st fr (200 - 1) Hst Hf Ha Hret) as [_ ->]; [lia |].
    rewrite Hx, x_axis_nth by lia.
    replace (INR (200 - 1)) with 199 by (rewrite INR_IZR_INZ; reflexivity).
    replace (199 * (4.99 / 199) + 0.01) with 5 by lra. reflexivity.
  - intros i Hi.
    destruct (far_axis_nth f a SL st fr i Hst Hf Ha Hret Hi) as [_ ->].
    eexists. split; [reflexivity |].
    rewrite Hx. pose proof (x_axis_bounds i 0 Hi) as [Hlo Hhi].
    set (x := nth i (np_linspace 0.01 5 200) 0) in *.
    assert (H1 : log10 0.01 <= log10 x) by (apply log10_le; lra).
    assert (H2 : log10 x <= log10 5) by (apply log10_le; lra).
    lra.
Qed.

Lemma far_field_range_witness :
  exists xs far full,
    far_and_full_field_intensity_on_axis 12 0.5 180 constants
    = (constants, inr (xs, far, full)) /\
    nth 0 far NaN = Fin (180 + 40).
Proof.
  destruct (far_field_range 12 0.5 180 constants)
    as (xs & far & full & Hrun & Hfirst & _).
  - unfold valid_input. lra.
  - split; reflexivity.
  - exists xs, far, full. split; [exact Hrun | exact Hfirst].
Defined.

(** ** Signs and globals *)

(** The three returned sequences, from the wavenumber and the velocity
    amplitude of the frame. *)
Lemma returned_sequences (f a SL : R) (st : kernel) (fr : frame) :
  returned f a SL st fr ->
  x_axis fr = np_linspace 0.01 5 200 /\
  I_far_axis fr =
    map (fun x => dB (np_square (far_sample (c st) (U0 fr) (k fr) a x)))
      (np_linspace 0.01 5 200) /\
  I_full_axis fr =
    map (fun x => dB ((rho0 st * c st * U0 fr) ^ 2 * (2 - 2 * cos (k fr * detour a x))))
      (np_linspace 0.01 5 200).
Proof.
  intros (_ & _ & _ & _ & _ & Hx & HP & HI & HP' & HI').
  split; [exact Hx |]. split.
  - rewrite HI, HP, Hx, map_map. reflexivity.
  - rewrite HI', HP', Hx, map_map. apply map_ext. intros x.
    now rewrite full_sample_abs2.
Qed.

Lemma far_sample_opp_radius (c U0 k a x : R) :
  far_sample c U0 k (- a) x = far_sample c U0 k a x.
Proof. unfold far_sample, Rdiv. ring. Qed.

Lemma detour_opp_radius (a x : R) : detour (- a) x = detour a x.
Proof.
  unfold detour, np_square.
  replace (- a * - a) with (a * a) by ring. reflexivity.
Qed.

(** X8: the sign of the radius is ignored: with [-a] in place of [a] the
    calculator has the same outcome, error or sequences, in every state. *)
Theorem radius_sign_ignored (f a SL : R) (st : kernel) :
  far_and_full_field_intensity_on_axis f (- a) SL st =
  far_and_full_field_intensity_on_axis f a SL st.
Proof.
  destruct (calculator_outcome f a SL st) as [[Hz Hr] | [Hnz [fr Hret]]];
    destruct (calculator_outcome f (- a) SL st) as [[Hz' Hr'] | [Hnz' [fr' Hret']]].
  - now rewrite Hr, Hr'.
  - exfalso. destruct Hnz' as (? & ? & ? & ?). destruct Hz as [? | [? | [? | ?]]]; lra.
  - exfalso. destruct Hnz as (? & ? & ? & ?). destruct Hz' as [? | [? | [? | ?]]]; lra.
  - rewrite (calculator_run _ _ _ _ _ Hret), (calculator_run _ _ _ _ _ Hret').
    destruct (returned_sequences _ _ _ _ _ Hret) as (-> & -> & ->).
    destruct (returned_sequences _ _ _ _ _ Hret') as (-> & -> & ->).
    destruct Hret as (_ & Hom & Hk & HS & HU & _).
    destruct Hret' as (_ & Hom' & Hk' & HS' & HU' & _).
    assert (Ek : k fr' = k fr) by congruence.
    assert (EU : U0 fr' = U0 fr).
    { rewrite HU, HU', HS, HS', Ek.
      replace (rho0 st * c st * k fr * - a * - a / 2)
        with (rho0 st * c st * k fr * a * a / 2) by (unfold Rdiv; ring).
      reflexivity. }
    rewrite Ek, EU.
    assert (Efar : forall x,
               dB (np_square (far_sample (c st) (U0 fr) (k fr) (- a) x)) =
               dB (np_square (far_sample (c st) (U0 fr) (k fr) a x)))
      by (intros x; now rewrite far_sample_opp_radius).
    assert (Efull : forall x,
               dB ((rho0 st * c st * U0 fr) ^ 2 * (2 - 2 * cos (k fr * detour (- a) x))) =
               dB ((rho0 st * c st * U0 fr) ^ 2 * (2 - 2 * cos (k fr * detour a x))))
      by (intros x; now rewrite detour_opp_radius).
    rewrite (map_ext _ _ Efar), (map_ext _ _ Efull). reflexivity.
Qed.

(** X9: the sign of the frequency does not show in what is returned: with
    [-f] in place of [f] the calculator raises in the same cases and returns
    the same range axis, far-field and full-field sequences. *)
Theorem frequency_sign_ignored (f a SL : R) (st : kernel) :
  far_and_full_field_intensity_on_axis (- f) a SL st =
  far_and_full_field_intensity_on_axis f a SL st.
Proof.
  destruct (calculator_outcome f a SL st) as [[Hz Hr] | [Hnz [fr Hret]]];
    destruct (calculator_outcome (- f) a SL st) as [[Hz' Hr'] | [Hnz' [fr' Hret']]].
  - now rewrite Hr, Hr'.
  - exfalso. destruct Hnz' as (? & ? & ? & ?). destruct Hz as [? | [? | [? | ?]]]; lra.
  - exfalso. destruct Hnz as (? & ? & ? & ?). destruct Hz' as [? | [? | [? | ?]]]; lra.
  - rewrite (calculator_run _ _ _ _ _ Hret), (calculator_run _ _ _ _ _ Hret').
    destruct (returned_sequences _ _ _ _ _ Hret) as (-> & -> & ->).
    destruct (returned_sequences _ _ _ _ _ Hret') as (-> & -> & ->).
    destruct Hret as (_ & Hom & Hk & HS & HU & _).
    destruct Hret' as (_ & Hom' & Hk' & HS' & HU' & _).
    destruct Hnz as (Hc & Hrho & Hf & Ha).
    pose proof PI_RGT_0 as Hpi.
    assert (Ek : k fr' = - k fr).
    { rewrite Hk, Hk', Hom, Hom'. field. exact Hc. }
    assert (Hk0 : k fr <> 0).
    { rewrite Hk, Hom. intros H.
      assert (H' : 2 * PI * f * 1000 = 0).
      { apply Rmult_eq_reg_r with (/ c st); [| now apply Rinv_neq_0_compat].
        rewrite Rmult_0_l. exact H. }
      assert (H'' : PI * f = 0) by lra.
      apply Rmult_integral in H''. lra. }
    assert (EU : U0 fr' = - U0 fr).
    { rewrite HU, HU', HS, HS', Ek. field. repeat split; assumption. }
    rewrite Ek, EU.
    assert (Efar : forall x,
               dB (np_square (far_sample (c st) (- U0 fr) (- k fr) a x)) =
               dB (np_square (far_sample (c st) (U0 fr) (k fr) a x))).
    { intros x. f_equal. unfold np_square, far_sample, Rdiv. ring. }
    assert (Efull : forall x,
               dB ((rho0 st * c st * - U0 fr) ^ 2 * (2 - 2 * cos (- k fr * detour a x))) =
               dB ((rho0 st * c st * U0 fr) ^ 2 * (2 - 2 * cos (k fr * detour a x)))).
    { intros x. f_equal.
      replace (- k fr * detour a x) with (- (k fr * detour a x)) by ring.
      rewrite cos_neg. ring. }
    rewrite (map_ext _ _ Efar), (map_ext _ _ Efull). reflexivity.
Qed.

(** X11: for globals of a moderate size ([0.001 <= |rho0| <= 10000],
    [1 <= |c| <= 10000]), a frequency and a radius of the sliders'
    magnitudes and a source level in the slider range, the far-field
    sequence is [SL - 10 log10 (rho0^2) - 20 log10 x] over the samples [x] of
    [np.linspace(0.01, 5, 200)]: it depends on neither the sound speed, the
    frequency nor the radius, and it is the source level at 1 m only because
    the cell sets [rho0] to 1. *)
Theorem far_field_any_globals (f a SL : R) (st : kernel) :
  moderate_globals st ->
  1 <= Rabs f <= 200 -> 0.01 <= Rabs a <= 1 -> 100 <= SL <= 220 ->
  exists xs far full,
    far_and_full_field_intensity_on_axis f a SL st = (st, inr (xs, far, full)) /\
    xs = np_linspace 0.01 5 200 /\
    length far = 200%nat /\
    far = map (fun x => Fin (SL - 10 * log10 (rho0 st ^ 2) - 20 * log10 x)) xs.
Proof.
  intros [[Hrho1 _] [Hc1 _]] [Hf1 _] [Ha1 _] _.
  assert (Hc : c st <> 0) by (apply (Rabs_nonzero 1); lra).
  assert (Hrho : rho0 st <> 0) by (apply (Rabs_nonzero 0.001); lra).
  assert (Hf : f <> 0) by (apply (Rabs_nonzero 1); lra).
  assert (Ha : a <> 0) by (apply (Rabs_nonzero 0.01); lra).
  destruct (calculator_outcome f a SL st) as [[Hz _] | [_ [fr Hret]]]; [exfalso; tauto |].
  exists (x_axis fr), (I_far_axis fr), (I_full_axis fr).
  split; [now apply calculator_run |].
  destruct (returned_lengths f a SL st fr Hret) as (_ & Hlf & _).
  split; [apply Hret |]. split; [exact Hlf |].
  destruct (returned_sequences _ _ _ _ _ Hret) as (-> & -> & _).
  destruct Hret as (_ & Hom & Hk & HS & HU & _).
  pose proof PI_RGT_0 as Hpi.
  apply nth_ext with (d := NaN) (d' := NaN); [now rewrite !length_map |].
  intros i Hi. rewrite length_map, np_linspace_length in Hi.
  rewrite !nth_map_lt with (d' := 0) by now rewrite np_linspace_length.
  pose proof (x_axis_pos i 0 Hi) as Hx.
  set (x := nth i (np_linspace 0.01 5 200) 0) in *.
  pose proof (Rpower10_pos (SL / 20)) as Hp.
  assert (Hr2 : 0 < rho0 st ^ 2).
  { replace (rho0 st ^ 2) with (Rsqr (rho0 st)) by (unfold Rsqr; ring).
    now apply Rlt_0_sqr. }
  assert (E : np_square (far_sample (c st) (U0 fr) (k fr) a x)
              = Rpower 10 (SL / 20) * Rpower 10 (SL / 20) * / (rho0 st ^ 2) * / (x * x)).
  { unfold np_square, far_sample. rewrite HU, HS, Hk, Hom.
    replace 0.5 with (/ 2) by lra. field. repeat split; lra. }
  rewrite E. set (S := Rpower 10 (SL / 20)) in *.
  assert (HSS : 0 < S * S) by now apply Rmult_lt_0_compat.
  assert (Hir : 0 < / (rho0 st ^ 2)) by now apply Rinv_0_lt_compat.
  assert (Hxx : 0 < x * x) by now apply Rmult_lt_0_compat.
  assert (Hix : 0 < / (x * x)) by now apply Rinv_0_lt_compat.
  assert (H1 : 0 < S * S * / (rho0 st ^ 2)) by now apply Rmult_lt_0_compat.
  unfold dB. rewrite np_log10_pos by now apply Rmult_lt_0_compat.
  cbn [xscale]. f_equal.
  rewrite (log10_mult _ _ H1 Hix), (log10_mult _ _ HSS Hir), (log10_mult S S Hp Hp).
  rewrite !log10_inv by assumption. rewrite (log10_mult x x Hx Hx).
  unfold S. rewrite log10_Rpower. lra.
Qed.

Lemma far_field_any_globals_witness :
  exists xs far full,
    far_and_full_field_intensity_on_axis 12 0.5 180 (mk_kernel 1000 343 [])
    = (mk_kernel 1000 343 [], inr (xs, far, full)) /\
    xs = np_linspace 0.01 5 200 /\
    far = map (fun x => Fin (180 - 10 * log10 (1000 ^ 2) - 20 * log10 x)) xs.
Proof.
  destruct (far_field_any_globals 12 0.5 180 (mk_kernel 1000 343 []))
    as (xs & far & full & Hrun & Hxs & _ & Hfar).
  - unfold moderate_globals. cbn [rho0 c]. rewrite !Rabs_pos_eq by lra. lra.
  - rewrite Rabs_pos_eq by lra. lra.
  - rewrite Rabs_pos_eq by lra. lra.
  - lra.
  - exists xs, far, full. split; [exact Hrun |]. split; [exact Hxs | exact Hfar].
Defined.
